(** * Cleanvee: the SLA compliance watchdog and the PII filter

    A shallow embedding of

    - [checkSlaCompliance], the optimized single-query watchdog,
    - its nested-loop predecessor of the same name, and
    - [pickPaths] / [sanitizeLogForAI] of the privacy service,

    together with the properties the specification states about them.

    Firestore is modelled as an in-memory store.  Every call that reaches
    the store is recorded in a trace, may fail (the environment decides
    which calls fail), and a write batch is applied atomically. *)

From Stdlib Require Import ZArith String Ascii List Lia Bool.
From stdpp Require Import base gmap strings list pretty.

Import ListNotations.
Set Warnings "-register-all".
Set Warnings "-abstract-large-number".
Local Open Scope string_scope.
Local Open Scope list_scope.

(** ** Documents *)

(** Instants are milliseconds since the epoch, as [Date.getTime] and
    [Timestamp.toMillis] give them. *)
Definition instant := Z.

Module Checkpoint.
Record t := mk {
  building_id : string;
  is_active : bool;
  last_cleaned_timestamp : option instant;
  last_cleaned_at : option string;
  current_status : string;
  updated_at : option instant
}.
End Checkpoint.

(** [details] of an alert.  [hours_overdue] holds the number in
    hundredths of an hour: the source keeps two decimals
    ([toFixed(2)]), so 5.25 hours is 525. *)
Record Details := mkDetails {
  hours_overdue : Z;
  sla_threshold_hours : Z
}.

Module Alert.
Record t := mk {
  building_id : string;
  checkpoint_id : string;
  type : string;
  severity : string;
  status : string;
  message : string;
  details : option Details;
  last_cleaned_at : string;
  created_at : option instant
    (* [None] is the pending FieldValue.serverTimestamp() of a document
       that is not yet written *)
}.
End Alert.

Module CleaningLogDoc.
Record t := mk {
  checkpoint_id : string;
  created_at : instant
}.
End CleaningLogDoc.

(** The collections the watchdogs touch.  [buildings] and [checkpoints]
    are keyed by document id; of a building only the id is ever read.
    Alerts and cleaning logs get auto-generated ids that no code reads,
    so these collections are lists, new documents going to the end. *)
Record Store := mkStore {
  buildings : gset string;
  checkpoints : gmap string Checkpoint.t;
  cleaning_logs : list CleaningLogDoc.t;
  alerts : list Alert.t
}.

(** ** Store operations *)

(** One queued operation of a write batch. *)
Inductive Write :=
| SetAlert (data : Alert.t)
    (* batch.set(alertsRef.doc(), {..., created_at: serverTimestamp()}) *)
| UpdateCheckpoint (id : string) (status : string).
    (* batch.update(ref, {current_status, updated_at: serverTimestamp()}) *)

(** Calls that reach the store. *)
Inductive Op :=
| GetBuildings
| QueryOverdueCheckpoints (threshold : instant)
| QueryCheckpointsOfBuilding (buildingId : string)
| QueryLastLog (cpId : string)
| QueryOpenAlertsIn (chunk : list string)
| QueryOpenAlertsOf (cpId : string)
| AddAlert (data : Alert.t)
| Commit (batch : list Write).

Definition is_write (op : Op) : bool :=
  match op with
  | AddAlert _ | Commit _ => true
  | _ => false
  end.

Inductive error :=
| StoreError (k : nat)      (* the k-th call failed *)
| NotFound (k : nat)        (* the k-th call updated a missing document *)
| OutOfFuel.

Inductive result (A : Type) :=
| Ok (a : A)
| Throw (e : error).
Arguments Ok {A} a.
Arguments Throw {A} e.

(** What a run cannot control: which calls fail and what the server
    clock shows when a call is served. *)
Record Env := mkEnv {
  faults : nat -> bool;
  server_time : nat -> instant
}.

Record World := mkWorld {
  store : Store;
  trace : list Op
}.

Definition M (A : Type) : Type := Env -> World -> World * result A.

Definition ret {A} (a : A) : M A := fun _ w => (w, Ok a).

Definition bind {A B} (m : M A) (k : A -> M B) : M B :=
  fun env w =>
    match m env w with
    | (w', Ok a) => k a env w'
    | (w', Throw e) => (w', Throw e)
    end.

Definition throw {A} (e : error) : M A := fun _ w => (w, Throw e).

Declare Scope store_scope.
Delimit Scope store_scope with store.
Notation "x <- m ;; k" := (bind m (fun x => k))
  (at level 100, m at next level, right associativity) : store_scope.
Notation "m ;;; k" := (bind m (fun _ => k))
  (at level 100, right associativity) : store_scope.
Local Open Scope store_scope.

(** [call op eff] issues [op]: it is appended to the trace, then either
    fails on the environment's say-so, or is served by [eff], which
    returns the new store and the answer, or [None] when the store itself
    rejects the call. *)
Definition call {A} (op : Op) (eff : instant -> Store -> option (Store * A)) : M A :=
  fun env w =>
    let k := length (trace w) in
    let tr := trace w ++ [op] in
    if faults env k then (mkWorld (store w) tr, Throw (StoreError k))
    else match eff (server_time env k) (store w) with
         | Some (s', a) => (mkWorld s' tr, Ok a)
         | None => (mkWorld (store w) tr, Throw (NotFound k))
         end.

Definition read {A} (op : Op) (q : Store -> A) : M A :=
  call op (fun _ s => Some (s, q s)).

(** *** Queries *)

Definition before (ts : option instant) (threshold : instant) : bool :=
  match ts with
  | Some t => (t <? threshold)%Z
  | None => false      (* an inequality filter skips documents without the field *)
  end.

Definition overdue_doc (threshold : instant) (doc : string * Checkpoint.t) : bool :=
  Checkpoint.is_active doc.2 && before (Checkpoint.last_cleaned_timestamp doc.2) threshold.

(** checkpoints.where("is_active","==",true)
               .where("last_cleaned_timestamp","<",threshold) *)
Definition overdue_checkpoints (threshold : instant) (s : Store)
  : list (string * Checkpoint.t) :=
  List.filter (overdue_doc threshold) (map_to_list (checkpoints s)).

Definition is_open_breach (a : Alert.t) : bool :=
  String.eqb (Alert.type a) "SLA_MISSING_CLEAN" && String.eqb (Alert.status a) "OPEN".

Definition mem (x : string) (l : list string) : bool :=
  existsb (String.eqb x) l.

(** alerts.where("checkpoint_id","in",chunk)
          .where("type","==","SLA_MISSING_CLEAN").where("status","==","OPEN") *)
Definition open_alerts_in (chunk : list string) (s : Store) : list Alert.t :=
  List.filter (fun a => mem (Alert.checkpoint_id a) chunk && is_open_breach a) (alerts s).

(** alerts.where("checkpoint_id","==",cpId).where("status","==","OPEN")
          .where("type","==","SLA_MISSING_CLEAN") *)
Definition open_alerts_of (cpId : string) (s : Store) : list Alert.t :=
  List.filter (fun a => String.eqb (Alert.checkpoint_id a) cpId && is_open_breach a) (alerts s).

Definition checkpoints_of_building (b : string) (s : Store)
  : list (string * Checkpoint.t) :=
  List.filter (fun doc => String.eqb (Checkpoint.building_id doc.2) b)
              (map_to_list (checkpoints s)).

(** cleaning_logs.where("checkpoint_id","==",cpId)
                 .orderBy("created_at","desc").limit(1):
    the latest creation instant, if the checkpoint has a log. *)
Definition last_log (cpId : string) (s : Store) : option instant :=
  fold_left
    (fun acc l =>
       if String.eqb (CleaningLogDoc.checkpoint_id l) cpId then
         match acc with
         | Some t => Some (Z.max t (CleaningLogDoc.created_at l))
         | None => Some (CleaningLogDoc.created_at l)
         end
       else acc)
    (cleaning_logs s) None.

(** *** Writes *)

Definition set_alerts (al : list Alert.t) (s : Store) : Store :=
  mkStore (buildings s) (checkpoints s) (cleaning_logs s) al.

Definition set_checkpoints (cps : gmap string Checkpoint.t) (s : Store) : Store :=
  mkStore (buildings s) cps (cleaning_logs s) (alerts s).

Definition with_status (status : string) (t : instant) (c : Checkpoint.t) : Checkpoint.t :=
  Checkpoint.mk (Checkpoint.building_id c) (Checkpoint.is_active c)
                (Checkpoint.last_cleaned_timestamp c) (Checkpoint.last_cleaned_at c)
                status (Some t).

Definition stamp (t : instant) (a : Alert.t) : Alert.t :=
  Alert.mk (Alert.building_id a) (Alert.checkpoint_id a) (Alert.type a)
           (Alert.severity a) (Alert.status a) (Alert.message a)
           (Alert.details a) (Alert.last_cleaned_at a) (Some t).

(** A new alert document: the server fills in [created_at]. *)
Definition add_alert (t : instant) (data : Alert.t) (s : Store) : Store :=
  set_alerts (alerts s ++ [stamp t data]) s.

(** One operation of a batch; [update] on a missing document is an error. *)
Definition apply_write (t : instant) (w : Write) (s : Store) : option Store :=
  match w with
  | SetAlert data => Some (add_alert t data s)
  | UpdateCheckpoint id status =>
      match checkpoints s !! id with
      | Some c => Some (set_checkpoints (<[id := with_status status t c]> (checkpoints s)) s)
      | None => None
      end
  end.

(** A batch is atomic: all of its operations are applied, or none. *)
Fixpoint apply_batch (t : instant) (batch : list Write) (s : Store) : option Store :=
  match batch with
  | [] => Some s
  | w :: rest =>
      match apply_write t w s with
      | Some s' => apply_batch t rest s'
      | None => None
      end
  end.

Definition commit (batch : list Write) : M unit :=
  call (Commit batch)
       (fun t s => match apply_batch t batch s with
                   | Some s' => Some (s', tt)
                   | None => None
                   end).

(** alerts.add({...}) of the nested-loop watchdog: a single write. *)
Definition add (data : Alert.t) : M unit :=
  call (AddAlert data) (fun t s => Some (add_alert t data s, tt)).

Definition run {A} (m : M A) (env : Env) (s : Store) : World * result A :=
  m env (mkWorld s []).

(** ** Numbers

    [hoursOverdue] is
    [parseFloat(((now.getTime() - lastCleanedMs) / (1000*60*60)).toFixed(2))].
    The operands are integers; the division is the binary64 one, its
    result rounded to the nearest double (ties to even); [toFixed(2)]
    then takes the nearest multiple of 1/100 of that double (ties to the
    larger one), and [parseFloat] reads it back.  The result is kept as
    the number of hundredths. *)

(** A finite double is [sig / 2^scale] (times [2^-scale] when [scale] is
    negative). *)
Record double := mkDouble { sig : Z; scale : Z }.

Local Open Scope Z_scope.

(** The quotient of two positive integers, rounded to 53 significant
    bits, ties to even: the binary64 division of operands that are
    doubles themselves (integers below [2^53] are), the quotient being
    a normal number. *)
Definition fdiv_pos (a b : Z) : double :=
  let s := Z.log2 a - Z.log2 b in
  let e := if Z.leb (b * 2 ^ Z.max s 0) (a * 2 ^ Z.max (- s) 0) then s else s - 1 in
  let k := 52 - e in
  let num := a * 2 ^ Z.max k 0 in
  let den := b * 2 ^ Z.max (- k) 0 in
  let q := num / den in
  let r := num mod den in
  let m := if 2 * r <? den then q
           else if den <? 2 * r then q + 1
           else if Z.even q then q else q + 1 in
  mkDouble m k.

(** [x.toFixed(2)] of a non-negative double below [10^21], read as a
    number of hundredths: the integer [n] with [n / 100] nearest to [x],
    the larger one of two. *)
Definition toFixed2_pos (x : double) : Z :=
  let num := sig x * 2 ^ Z.max (- scale x) 0 in
  let den := 2 ^ Z.max (scale x) 0 in
  (200 * num + den) / (2 * den).

(** Division and [toFixed] both treat the sign apart from the size.  The
    difference of the two instants is exact as long as it is below
    [2^53] in size, which instants of the [Date] and [Timestamp] ranges
    ensure. *)
Definition hours_between (now last : instant) : Z :=
  let d := now - last in
  if d =? 0 then 0
  else Z.sgn d * toFixed2_pos (fdiv_pos (Z.abs d) (1000 * 60 * 60)).

Local Close Scope Z_scope.

(** The number as JavaScript prints it in a template string: no trailing
    zeros, no decimal point for a whole number. *)
Definition show_hundredths (h : Z) : string :=
  let n := Z.abs h in
  let whole := pretty (n / 100)%Z in
  let frac := (n mod 100)%Z in
  let digits :=
    if (frac =? 0)%Z then ""
    else if (frac mod 10 =? 0)%Z then "." +:+ pretty (frac / 10)%Z
    else "." +:+ pretty (frac / 10)%Z +:+ pretty (frac mod 10)%Z in
  (if (h <? 0)%Z then "-" else "") +:+ whole +:+ digits.

(** ** The optimized watchdog *)

Definition DEFAULT_MAX_GAP_HOURS : Z := 4.
Definition chunkSize : nat := 10.

Record AlertToCreate := mkAlertToCreate {
  checkpointId : string;
  buildingId : string;
  lastCleanedAt : string;
  hoursOverdue : Z
}.

(** [checkpointIds.slice(i, j)] *)
Definition slice {A} (l : list A) (i j : nat) : list A :=
  take (j - i) (drop i l).

(** [existingAlertsMap.set(alertDoc.data().checkpoint_id, true)] for every
    document of one query result. *)
Definition record_existing (existingAlerts : list Alert.t)
    (existingAlertsMap : gmap string bool) : gmap string bool :=
  fold_left (fun m a => <[Alert.checkpoint_id a := true]> m)
            existingAlerts existingAlertsMap.

(** The chunked existence check:
    [for (let i = 0; i < checkpointIds.length; i += chunkSize)]. *)
Fixpoint dedup_loop (fuel : nat) (checkpointIds : list string) (i : nat)
    (existingAlertsMap : gmap string bool) : M (gmap string bool) :=
  if (i <? length checkpointIds)%nat then
    match fuel with
    | O => throw OutOfFuel
    | S fuel' =>
        let chunk := slice checkpointIds i (i + chunkSize) in
        existingAlerts <- read (QueryOpenAlertsIn chunk) (open_alerts_in chunk) ;;
        dedup_loop fuel' checkpointIds (i + chunkSize)
                   (record_existing existingAlerts existingAlertsMap)
    end
  else ret existingAlertsMap.

(** [existingAlertsMap.has(checkpointId)] *)
Definition has (existingAlertsMap : gmap string bool) (checkpointId : string) : bool :=
  match existingAlertsMap !! checkpointId with
  | Some _ => true
  | None => false
  end.

(** [data.last_cleaned_at || "never"]: the empty string is falsy too. *)
Definition or_never (s : option string) : string :=
  match s with
  | Some EmptyString | None => "never"
  | Some s => s
  end.

(** [data.last_cleaned_timestamp?.toMillis() || 0] *)
Definition lastCleanedMs (c : Checkpoint.t) : instant :=
  match Checkpoint.last_cleaned_timestamp c with
  | Some t => t
  | None => 0%Z
  end.

(** The loop that decides which checkpoints need a new alert. *)
Definition alerts_to_create (now : instant) (docs : list (string * Checkpoint.t))
    (existingAlertsMap : gmap string bool) : list AlertToCreate :=
  map (fun doc =>
         mkAlertToCreate doc.1 (Checkpoint.building_id doc.2)
                         (or_never (Checkpoint.last_cleaned_at doc.2))
                         (hours_between now (lastCleanedMs doc.2)))
      (List.filter (fun doc => negb (has existingAlertsMap doc.1)) docs).

Definition new_alert (a : AlertToCreate) : Alert.t :=
  Alert.mk (buildingId a) (checkpointId a) "SLA_MISSING_CLEAN" "MEDIUM" "OPEN"
           ("Area has not been cleaned in " +:+ show_hundredths (hoursOverdue a)
            +:+ " hours (SLA: " +:+ pretty DEFAULT_MAX_GAP_HOURS +:+ "h).")
           (Some (mkDetails (hoursOverdue a) DEFAULT_MAX_GAP_HOURS))
           (lastCleanedAt a) None.

Definition alert_batch (alertsToCreate : list AlertToCreate) : list Write :=
  map (fun a => SetAlert (new_alert a)) alertsToCreate.

Definition status_batch (alertsToCreate : list AlertToCreate) : list Write :=
  map (fun a => UpdateCheckpoint (checkpointId a) "OVERDUE") alertsToCreate.

Definition threshold_of (now : instant) : instant :=
  (now - DEFAULT_MAX_GAP_HOURS * 60 * 60 * 1000)%Z.

(** The scheduled function.  Its [catch] logs and rethrows, so an error
    leaves the function as it arose. *)
Definition checkSlaCompliance (now : instant) : M unit :=
  let thresholdDate := threshold_of now in
  overdueCheckpointsSnapshot <-
    read (QueryOverdueCheckpoints thresholdDate) (overdue_checkpoints thresholdDate) ;;
  match overdueCheckpointsSnapshot with
  | [] => ret tt
  | _ :: _ =>
      let checkpointIds := map fst overdueCheckpointsSnapshot in
      existingAlertsMap <- dedup_loop (length checkpointIds) checkpointIds 0 ∅ ;;
      let alertsToCreate :=
        alerts_to_create now overdueCheckpointsSnapshot existingAlertsMap in
      match alertsToCreate with
      | [] => ret tt
      | _ :: _ =>
          commit (alert_batch alertsToCreate) ;;;
          commit (status_batch alertsToCreate)
      end
  end.

(** ** The nested-loop watchdog (the predecessor) *)

Fixpoint for_each {A} (l : list A) (body : A -> M unit) : M unit :=
  match l with
  | [] => ret tt
  | x :: rest => body x ;;; for_each rest body
  end.

Module Naive.
Section Naive.
(** [Date.prototype.toISOString], a built-in the alert text goes
    through; no property below depends on the text. *)
Variable toISOString : instant -> string.

Definition MAX_GAP_HOURS : Z := 4.

Definition new_alert (buildingId cpId : string) (lastCleanedAt : instant) : Alert.t :=
  Alert.mk buildingId cpId "SLA_MISSING_CLEAN" "MEDIUM" "OPEN"
           ("Area has not been cleaned in over " +:+ pretty MAX_GAP_HOURS +:+ " hours.")
           None (toISOString lastCleanedAt) None.

(** The body of the inner loop, for one checkpoint document. *)
Definition check_checkpoint (thresholdDate : instant) (buildingId cpId : string) : M unit :=
  lastLogSnap <- read (QueryLastLog cpId) (last_log cpId) ;;
  let lastCleanedAt :=
    match lastLogSnap with
    | Some created_at => created_at
    | None => 0%Z                       (* new Date(0): epoch if never cleaned *)
    end in
  if (lastCleanedAt <? thresholdDate)%Z then
    activeAlerts <- read (QueryOpenAlertsOf cpId) (open_alerts_of cpId) ;;
    match activeAlerts with
    | [] => add (new_alert buildingId cpId lastCleanedAt)
    | _ :: _ => ret tt
    end
  else ret tt.

(** The body of the outer loop, for one building document. *)
Definition check_building (now : instant) (buildingId : string) : M unit :=
  let thresholdDate := (now - MAX_GAP_HOURS * 60 * 60 * 1000)%Z in
  checkpointsSnap <-
    read (QueryCheckpointsOfBuilding buildingId) (checkpoints_of_building buildingId) ;;
  for_each checkpointsSnap
           (fun cpDoc => check_checkpoint thresholdDate buildingId cpDoc.1).

Definition checkSlaCompliance (now : instant) : M unit :=
  buildingsSnap <- read GetBuildings (fun s => elements (buildings s)) ;;
  for_each buildingsSnap (check_building now).
End Naive.
End Naive.

(** ** The PII filter *)

(** JSON-like values, the shape of a Firestore document.  An object is
    the list of its properties in insertion order. *)
Inductive value :=
| VUndefined
| VNull
| VBool (b : bool)
| VNum (x : double)
| VStr (s : string)
| VArr (items : list value)
| VObj (fields : list (string * value)).

Inductive outcome (A : Type) :=
| Returned (a : A)
| TypeError
| Unsupported.      (* a step outside this value model *)
Arguments Returned {A} a.
Arguments TypeError {A}.
Arguments Unsupported {A}.

Definition obind {A B} (m : outcome A) (k : A -> outcome B) : outcome B :=
  match m with
  | Returned a => k a
  | TypeError => TypeError
  | Unsupported => Unsupported
  end.

Declare Scope js_scope.
Delimit Scope js_scope with js.
Notation "x <- m ;; k" := (obind m (fun x => k))
  (at level 100, m at next level, right associativity) : js_scope.

Fixpoint lookup_field (key : string) (fields : list (string * value)) : value :=
  match fields with
  | [] => VUndefined
  | (k, v) :: rest => if String.eqb k key then v else lookup_field key rest
  end.

(** [source[key]], for a key that names no built-in member (no key of the
    data policy does): own properties of objects only. *)
Definition get_prop (source : value) (key : string) : value :=
  match source with
  | VObj fields => lookup_field key fields
  | _ => VUndefined
  end.

Fixpoint assign_field (key : string) (v : value) (fields : list (string * value))
  : list (string * value) :=
  match fields with
  | [] => [(key, v)]
  | (k, w) :: rest =>
      if String.eqb k key then (k, v) :: rest else (k, w) :: assign_field key v rest
  end.

(** [target[key] = v] in strict mode: a primitive target is a TypeError. *)
Definition set_prop (target : value) (key : string) (v : value) : outcome value :=
  match target with
  | VObj fields => Returned (VObj (assign_field key v fields))
  | VArr _ => Unsupported
  | _ => TypeError
  end.

Definition nullish (v : value) : bool :=
  match v with
  | VUndefined | VNull => true
  | _ => false
  end.

Definition is_undefined (v : value) : bool :=
  match v with
  | VUndefined => true
  | _ => false
  end.

Definition truthy (v : value) : bool :=
  match v with
  | VUndefined | VNull => false
  | VBool b => b
  | VNum x => negb (sig x =? 0)%Z
  | VStr s => negb (String.eqb s "")
  | VArr _ | VObj _ => true
  end.

(** [path.split('.')] *)
Fixpoint split_dots (path : string) : list string :=
  match path with
  | EmptyString => [""]
  | String c rest =>
      if Ascii.eqb c "."%char then "" :: split_dots rest
      else match split_dots rest with
           | part :: parts => String c part :: parts
           | [] => [String c ""]
           end
  end.

(** The inner loop of [pickPaths] over the parts of one path, from the
    current [source] and [target] on; it gives the new [target].  When an
    intermediate [source[key]] is undefined the loop goes on to the next
    part with [source] and [target] as they are. *)
Fixpoint pick_parts (parts : list string) (source target : value) : outcome value :=
  match parts with
  | [] => Returned target
  | key :: rest =>
      if nullish source then Returned target
      else
        match rest with
        | [] =>
            if is_undefined (get_prop source key) then Returned target
            else set_prop target key (get_prop source key)
        | _ :: _ =>
            if is_undefined (get_prop source key) then pick_parts rest source target
            else
              let sub := if truthy (get_prop target key) then get_prop target key
                         else VObj [] in
              (target1 <- set_prop target key sub ;;
               sub' <- pick_parts rest (get_prop source key) sub ;;
               set_prop target1 key sub')%js
        end
  end.

Definition pickPaths (obj : value) (paths : list string) : outcome value :=
  fold_left (fun result path =>
               (r <- result ;; pick_parts (split_dots path) obj r)%js)
            paths (Returned (VObj [])).

Module AI_SAFE_FIELDS.
Definition cleaningLog : list string :=
  [ "id"; "checkpoint_id"; "building_id"; "sync_status"; "created_at";
    "proof_of_quality.overall_score"; "proof_of_quality.detected_objects";
    "proof_of_quality.ai_model_used"; "proof_of_quality.inference_time_ms";
    "proof_of_quality.passed_validation";
    "verification_result.status"; "verification_result.rejection_reason" ].

Definition checkpoint : list string :=
  [ "id"; "building_id"; "location_label"; "floor_number"; "x_rel"; "y_rel";
    "ai_config.model_version"; "ai_config.target_labels"; "current_status" ].

Definition building : list string :=
  [ "id"; "name";
    "client_sla_config.required_cleanings_per_day";
    "client_sla_config.cleaning_window_start";
    "client_sla_config.cleaning_window_end" ].

Definition alert : list string :=
  [ "id"; "building_id"; "checkpoint_id"; "severity"; "status"; "type";
    "details.score"; "details.detected_hazards"; "created_at" ].
End AI_SAFE_FIELDS.

Module PII_FIELDS.
Definition cleaningLog : list string :=
  [ "cleaner_id"; "proof_of_presence.geo_location";
    "proof_of_presence.nfc_tap_timestamp" ].

Definition user : list string :=
  [ "uid"; "email"; "full_name"; "assigned_building_ids" ].

Definition building : list string :=
  [ "address.street"; "address.city"; "address.state"; "address.zip" ].
End PII_FIELDS.

Section Sanitize.
(** [redactText]: the replacements of REDACTION_PATTERNS on a string.
    The regular expressions are not modelled; what is proved holds
    whatever they rewrite. *)
Variable redactText : string -> string.

Definition sanitizeLogForAI (log : value) : outcome value :=
  (sanitized <- pickPaths log AI_SAFE_FIELDS.cleaningLog ;;
   let verification_result := get_prop sanitized "verification_result" in
   let rejection_reason :=
     if nullish verification_result then VUndefined
     else get_prop verification_result "rejection_reason" in
   if truthy rejection_reason then
     match rejection_reason with
     | VStr text =>
         vr <- set_prop verification_result "rejection_reason" (VStr (redactText text)) ;;
         set_prop sanitized "verification_result" vr
     | _ => TypeError            (* text.replace is not a function *)
     end
   else Returned sanitized)%js.
End Sanitize.

(** * The vocabulary of the properties *)

(** The environment lets every call through. *)
Definition no_faults (env : Env) : Prop := forall k, faults env k = false.

(** The chunks the loop slices off, in order. *)
Fixpoint chunks (fuel : nat) (ids : list string) (i : nat) : list (list string) :=
  if (i <? length ids)%nat then
    match fuel with
    | O => []
    | S fuel' => slice ids i (i + chunkSize) :: chunks fuel' ids (i + chunkSize)
    end
  else [].

(** The first call in the window [start, start + n) that the environment
    lets fail. *)
Fixpoint first_fault (env : Env) (start n : nat) : option nat :=
  match n with
  | O => None
  | S n' => if faults env start then Some start else first_fault env (S start) n'
  end.

Definition existing_of (cs : list (list string)) (s : Store) : list Alert.t :=
  concat (map (fun chunk => open_alerts_in chunk s) cs).

Definition overdue_now (now : instant) (s : Store) : list (string * Checkpoint.t) :=
  overdue_checkpoints (threshold_of now) s.

Definition dedup_chunks (now : instant) (s : Store) : list (list string) :=
  let ids := map fst (overdue_now now s) in
  chunks (length ids) ids 0.

(** The alerts a run at [now] on store [s] sets out to create. *)
Definition to_create (now : instant) (s : Store) : list AlertToCreate :=
  alerts_to_create now (overdue_now now s)
                   (record_existing (existing_of (dedup_chunks now s) s) ∅).

Definition after_alerts (t : instant) (now : instant) (s : Store) : Store :=
  set_alerts (alerts s ++ map (fun a => stamp t (new_alert a)) (to_create now s)) s.

Definition mark_overdue (t : instant) (ids : list string)
    (cps : gmap string Checkpoint.t) : gmap string Checkpoint.t :=
  fold_left (fun m id => alter (with_status "OVERDUE" t) id m) ids cps.

Definition after_status (t : instant) (now : instant) (s0 s : Store) : Store :=
  set_checkpoints (mark_overdue t (map checkpointId (to_create now s0)) (checkpoints s)) s.

(** The outcome of a run, read off the environment: the world it leaves
    and what it returns. *)
Definition expected (now : instant) (env : Env) (s : Store) : World * result unit :=
  let q0 := QueryOverdueCheckpoints (threshold_of now) in
  let cs := dedup_chunks now s in
  let queries := q0 :: map QueryOpenAlertsIn cs in
  let atc := to_create now s in
  let k1 := S (length cs) in
  if faults env 0 then (mkWorld s [q0], Throw (StoreError 0))
  else match overdue_now now s with
  | [] => (mkWorld s [q0], Ok tt)
  | _ :: _ =>
    match first_fault env 1 (length cs) with
    | Some k => (mkWorld s (q0 :: map QueryOpenAlertsIn (take k cs)), Throw (StoreError k))
    | None =>
      match atc with
      | [] => (mkWorld s queries, Ok tt)
      | _ :: _ =>
        if faults env k1
        then (mkWorld s (queries ++ [Commit (alert_batch atc)]), Throw (StoreError k1))
        else
          let s1 := after_alerts (server_time env k1) now s in
          let tr := queries ++ [Commit (alert_batch atc); Commit (status_batch atc)] in
          if faults env (S k1) then (mkWorld s1 tr, Throw (StoreError (S k1)))
          else (mkWorld (after_status (server_time env (S k1)) now s s1) tr, Ok tt)
      end
    end
  end.

(** Some alert of the store is an open breach alert of checkpoint [id]. *)
Definition has_open (s : Store) (id : string) : bool :=
  existsb (fun a => String.eqb (Alert.checkpoint_id a) id && is_open_breach a) (alerts s).

Definition FOUR_HOURS_MS : Z := 14400000.

(** The alerts a run has added to the store. *)
Definition added (s s' : Store) : list Alert.t := drop (length (alerts s)) (alerts s').

(** The identifiers a run has asked the existence queries about. *)
Definition checked_ids (tr : list Op) : list string :=
  flat_map (fun op => match op with
                      | QueryOpenAlertsIn chunk => chunk
                      | _ => []
                      end) tr.

(** A checkpoint is active and was last cleaned strictly before [cutoff]. *)
Definition cleaned_before (cutoff : instant) (s : Store) (id : string) : Prop :=
  exists c, checkpoints s !! id = Some c /\ Checkpoint.is_active c = true /\
            exists t, Checkpoint.last_cleaned_timestamp c = Some t /\ (t < cutoff)%Z.

Definition at_most_one_open (s : Store) : Prop :=
  forall id, length (open_alerts_of id s) <= 1.

Definition count_open (l : list Alert.t) (id : string) : nat :=
  length (List.filter (fun a => String.eqb (Alert.checkpoint_id a) id && is_open_breach a) l).

(** Every write batch in a trace has at most [ceiling] operations. *)
Definition batches_within (ceiling : nat) (tr : list Op) : bool :=
  forallb (fun op => match op with
                     | Commit batch => Nat.leb (length batch) ceiling
                     | _ => true
                     end) tr.

Definition quiet : Env := mkEnv (fun _ => false) (fun k => Z.of_nat k).

Definition stale_checkpoint : Checkpoint.t :=
  Checkpoint.mk "bld_001" true (Some 0%Z) None "CLEAN" None.

(** [n] active checkpoints, all last cleaned at the epoch, and no alert. *)
Definition stale_store (n : nat) : Store :=
  mkStore ∅ (list_to_map (map (fun i => (pretty i, stale_checkpoint)) (seq 0 n))) [] [].

(** Some write batch in a trace has exactly [n] operations. *)
Definition has_batch_of (n : nat) (tr : list Op) : bool :=
  existsb (fun op => match op with
                     | Commit batch => Nat.eqb (length batch) n
                     | _ => false
                     end) tr.

Definition HOUR_MS : Z := 1000 * 60 * 60.

(** The ranges of a JavaScript [Date] and of a Firestore [Timestamp], in
    milliseconds. *)
Definition MAX_DATE_MS : Z := 8640000000000000.

Definition MIN_TIMESTAMP_MS : Z := -62135596800000.

(** No checkpoint carries an instant before the first Firestore
    [Timestamp]. *)
Definition timestamps_in_range (s : Store) : bool :=
  forallb (fun doc => match Checkpoint.last_cleaned_timestamp doc.2 with
                      | Some t => (MIN_TIMESTAMP_MS <=? t)%Z
                      | None => true
                      end)
          (map_to_list (checkpoints s)).

(** [s'] is [s] with alerts added at the end, all of them open breach
    alerts, for the checkpoints [ids] in this order. *)
Definition extends_with (s s' : Store) (ids : list string) : Prop :=
  buildings s' = buildings s /\ checkpoints s' = checkpoints s
  /\ cleaning_logs s' = cleaning_logs s
  /\ exists new, alerts s' = alerts s ++ new
                 /\ map Alert.checkpoint_id new = ids
                 /\ Forall (fun a => is_open_breach a = true) new.

(** The latest cleaning of a checkpoint as the nested-loop watchdog
    reads it: the creation instant of its latest log, the epoch without
    one. *)
Definition last_cleaned (s : Store) (cpId : string) : instant :=
  match last_log cpId s with
  | Some created_at => created_at
  | None => 0%Z
  end.

Definition naive_flags (thr : instant) (s : Store) (cpId : string) : bool :=
  (last_cleaned s cpId <? thr)%Z && negb (has_open s cpId).

(** The checkpoints of building [b] that the nested loops flag. *)
Definition flagged_in (thr : instant) (s : Store) (b : string) : list string :=
  List.filter (naive_flags thr s) (map fst (checkpoints_of_building b s)).

(** Every checkpoint is active and carries, as its denormalized
    last-cleaned instant, the creation instant of its latest cleaning log
    (the epoch without one). *)
Definition denormalized (s : Store) : bool :=
  forallb (fun doc =>
             Checkpoint.is_active doc.2
             && match Checkpoint.last_cleaned_timestamp doc.2 with
                | Some t => (t =? last_cleaned s doc.1)%Z
                | None => false
                end)
          (map_to_list (checkpoints s)).

(** Every checkpoint's building is a document of [buildings]. *)
Definition buildings_known (s : Store) : bool :=
  forallb (fun doc => bool_decide (Checkpoint.building_id doc.2 ∈ buildings s))
          (map_to_list (checkpoints s)).

(** The field names of the paths of a policy. *)
Definition path_names (paths : list string) : list string :=
  flat_map split_dots paths.

Definition pick_step (obj : value) (result : outcome value) (path : string)
  : outcome value :=
  obind result (fun r => pick_parts (split_dots path) obj r).

Fixpoint remove_field (key : string) (fields : list (string * value))
  : list (string * value) :=
  match fields with
  | [] => []
  | (k, v) :: rest =>
      if String.eqb k key then remove_field key rest else (k, v) :: remove_field key rest
  end.

Fixpoint map_field (key : string) (f : value -> value) (fields : list (string * value))
  : list (string * value) :=
  match fields with
  | [] => []
  | (k, v) :: rest =>
      if String.eqb k key then (k, f v) :: rest else (k, v) :: map_field key f rest
  end.

(** The value without the property at the path [parts]. *)
Fixpoint omit_parts (parts : list string) (v : value) : value :=
  match parts, v with
  | [last], VObj fields => VObj (remove_field last fields)
  | key :: rest, VObj fields => VObj (map_field key (omit_parts rest) fields)
  | _, _ => v
  end.

(** The log without the paths of [PII_FIELDS.cleaningLog]: two logs
    differ in PII fields only when this gives the same for both. *)
Definition omit_pii (log : value) : value :=
  fold_left (fun v path => omit_parts (split_dots path) v) PII_FIELDS.cleaningLog log.

Definition listed (path : string) : Prop := In path AI_SAFE_FIELDS.cleaningLog.

(** The last names of the nested paths of the policy. *)
Definition nested_leaves : list string :=
  flat_map (fun path => match split_dots path with
                        | [_; leaf] => [leaf]
                        | _ => []
                        end)
           AI_SAFE_FIELDS.cleaningLog.

Definition is_string (v : value) : bool :=
  match v with
  | VStr _ => true
  | _ => false
  end.

(** Modelled from the spec: the [CleaningLog] interface that types the
    argument of [sanitizeLogForAI] is declared in types.ts, which is not
    among the sources, and the specification gives the filter only as
    [sanitize(record)].  What is assumed of a cleaning log is read off
    the data policy: the names the policy nests under
    [proof_of_quality] and [verification_result] are not fields of the
    log itself, and a rejection reason, when there is one, is a
    string. *)
Definition cleaning_log_shape (fields : list (string * value)) : bool :=
  forallb (fun leaf => is_undefined (lookup_field leaf fields)) nested_leaves
  && (let reason :=
        get_prop (lookup_field "verification_result" fields) "rejection_reason" in
      negb (truthy reason) || is_string reason).

Definition sub_of (v : value) : list (string * value) :=
  match v with
  | VObj fields => fields
  | _ => []
  end.

Definition leaf_result (key : string) (fs r : list (string * value)) :=
  if is_undefined (lookup_field key fs) then r
  else assign_field key (lookup_field key fs) r.

Definition nested_result (p leaf : string) (fs r : list (string * value)) :=
  let v := lookup_field p fs in
  if is_undefined v then r
  else
    let sub0 := sub_of (lookup_field p r) in
    let sub' := if nullish v || is_undefined (get_prop v leaf) then sub0
                else assign_field leaf (get_prop v leaf) sub0 in
    assign_field p (VObj sub') (assign_field p (VObj sub0) r).

Definition entry_ok (k : string) (v : value) : Prop :=
  listed k \/
  exists sub, v = VObj sub /\ forall k2, In k2 (map fst sub) -> listed (k +:+ "." +:+ k2).

Definition only_listed (r : list (string * value)) : Prop :=
  forall k v, In (k, v) r -> entry_ok k v.

(** The rejection reason of a result is the log's, if it has one. *)
Definition reason_from (fs r : list (string * value)) : Prop :=
  let got := get_prop (lookup_field "verification_result" r) "rejection_reason" in
  got = VUndefined \/
  got = get_prop (lookup_field "verification_result" fs) "rejection_reason".

Definition picked_from (fs r : list (string * value)) : Prop :=
  only_listed r /\ reason_from fs r.

Definition T0 : instant := 1700000000000%Z.

Definition checkpoint_cleaned (t : instant) : Checkpoint.t :=
  Checkpoint.mk "bld_001" true (Some t) (Some "2023-11-14") "CLEAN" None.

Definition open_alert (cpId : string) : Alert.t :=
  Alert.mk "bld_001" cpId "SLA_MISSING_CLEAN" "MEDIUM" "OPEN" "" None "never" (Some 0%Z).

(** Three checkpoints of one building, cleaned five, six and one hour
    before [T0], with their logs; the second has an open alert. *)
Definition demo_store : Store :=
  mkStore {["bld_001"]}
          (list_to_map [("cp_001", checkpoint_cleaned (T0 - 5 * HOUR_MS)%Z);
                        ("cp_002", checkpoint_cleaned (T0 - 6 * HOUR_MS)%Z);
                        ("cp_003", checkpoint_cleaned (T0 - 1 * HOUR_MS)%Z)])
          [CleaningLogDoc.mk "cp_001" (T0 - 5 * HOUR_MS)%Z;
           CleaningLogDoc.mk "cp_002" (T0 - 7 * HOUR_MS)%Z;
           CleaningLogDoc.mk "cp_002" (T0 - 6 * HOUR_MS)%Z;
           CleaningLogDoc.mk "cp_003" (T0 - 1 * HOUR_MS)%Z]
          [open_alert "cp_002"].

(** One checkpoint cleaned at the cutoff of a run at [T0], one a
    millisecond before. *)
Definition boundary_store : Store :=
  mkStore ∅
          (list_to_map [("at_cutoff", checkpoint_cleaned (threshold_of T0));
                        ("just_before", checkpoint_cleaned (threshold_of T0 - 1)%Z)])
          [] [].

(** The environment in which only call [k] fails. *)
Definition failing_at (k : nat) : Env :=
  mkEnv (fun j => Nat.eqb j k) (fun j => Z.of_nat j).

Definition demo_log (cleaner : string) (latitude : Z) : list (string * value) :=
  [("id", VStr "log_001");
   ("checkpoint_id", VStr "cp_001");
   ("cleaner_id", VStr cleaner);
   ("proof_of_presence",
    VObj [("nfc_payload_hash", VStr "9f2c");
          ("geo_location", VObj [("latitude", VNum (mkDouble latitude 0))]);
          ("nfc_tap_timestamp", VStr "2023-11-14T17:13:20Z")]);
   ("proof_of_quality", VObj [("overall_score", VNum (mkDouble 3 2))]);
   ("verification_result",
    VObj [("status", VStr "rejected");
          ("rejection_reason", VStr "see EMP-1234")])].

(** * Properties *)

(** ** The store monad *)

Lemma read_ok {A} (op : Op) (q : Store -> A) env w :
  faults env (length (trace w)) = false ->
  read op q env w = (mkWorld (store w) (trace w ++ [op]), Ok (q (store w))).
Proof. intros H. unfold read, call. now rewrite H. Qed.

Lemma read_fail {A} (op : Op) (q : Store -> A) env w :
  faults env (length (trace w)) = true ->
  read op q env w
  = (mkWorld (store w) (trace w ++ [op]), Throw (StoreError (length (trace w)))).
Proof. intros H. unfold read, call. now rewrite H. Qed.

Lemma bind_ok {A B} (m : M A) (k : A -> M B) env w w' a :
  m env w = (w', Ok a) -> bind m k env w = k a env w'.
Proof. intros H. unfold bind. now rewrite H. Qed.

Lemma bind_throw {A B} (m : M A) (k : A -> M B) env w w' e :
  m env w = (w', Throw e) -> bind m k env w = (w', Throw e).
Proof. intros H. unfold bind. now rewrite H. Qed.

(** ** The overdue query *)

Lemma in_map_to_list {V} (m : gmap string V) id v :
  In (id, v) (map_to_list m) <-> m !! id = Some v.
Proof. rewrite <- list_elem_of_In. apply elem_of_map_to_list. Qed.

Lemma before_spec ts threshold :
  before ts threshold = true <-> exists t, ts = Some t /\ (t < threshold)%Z.
Proof.
  destruct ts as [t|]; simpl.
  - rewrite Z.ltb_lt. split; [eauto | intros (t' & [= <-] & ?); trivial].
  - split; [discriminate | intros (t' & [=] & _)].
Qed.

Lemma in_overdue_checkpoints threshold s id c :
  In (id, c) (overdue_checkpoints threshold s) <->
  checkpoints s !! id = Some c /\ Checkpoint.is_active c = true /\
  exists t, Checkpoint.last_cleaned_timestamp c = Some t /\ (t < threshold)%Z.
Proof.
  unfold overdue_checkpoints, overdue_doc. rewrite filter_In, in_map_to_list.
  simpl. rewrite andb_true_iff, before_spec. tauto.
Qed.

Lemma NoDup_overdue_ids threshold s :
  List.NoDup (map fst (overdue_checkpoints threshold s)).
Proof.
  unfold overdue_checkpoints.
  assert (H : List.NoDup (map fst (map_to_list (checkpoints s)))).
  { apply NoDup_ListNoDup, NoDup_fst_map_to_list. }
  revert H. generalize (map_to_list (checkpoints s)) as l.
  induction l as [|d l IH]; simpl; intros H; [constructor|].
  inversion H as [|? ? Hd Hl]; subst.
  destruct (overdue_doc threshold d); simpl; auto.
  constructor; auto.
  intros Hin. apply Hd. apply in_map_iff in Hin as (d' & <- & Hin).
  apply in_map. apply filter_In in Hin. tauto.
Qed.

(** ** The chunked existence check *)

Lemma first_fault_None env start n :
  first_fault env start n = None <->
  forall k, start <= k < start + n -> faults env k = false.
Proof.
  revert start. induction n as [|n IH]; intros start; simpl.
  - split; [intros _ k Hk; lia | trivial].
  - destruct (faults env start) eqn:F.
    + split; [discriminate|]. intros H. rewrite H in F by lia. discriminate.
    + rewrite IH. split; intros H k Hk.
      * destruct (Nat.eq_dec k start) as [->|]; [trivial | apply H; lia].
      * apply H. lia.
Qed.

Lemma first_fault_Some env start n k :
  first_fault env start n = Some k ->
  (start <= k < start + n) /\ faults env k = true /\
  (forall j, start <= j < k -> faults env j = false).
Proof.
  revert start. induction n as [|n IH]; intros start; simpl; [discriminate|].
  destruct (faults env start) eqn:F.
  - intros [= <-]. repeat split; try lia; trivial.
  - intros H. apply IH in H as (? & ? & Hb). repeat split; try lia; trivial.
    intros j Hj. destruct (Nat.eq_dec j start) as [->|]; [trivial | apply Hb; lia].
Qed.

Lemma first_fault_at env start n k :
  start <= k < start + n -> faults env k = true ->
  (forall j, j < k -> faults env j = false) ->
  first_fault env start n = Some k.
Proof.
  revert start. induction n as [|n IH]; intros start Hk F Hb; simpl; [lia|].
  destruct (Nat.eq_dec k start) as [->|Hne].
  - now rewrite F.
  - rewrite Hb by lia. apply IH; trivial. lia.
Qed.

Lemma no_faults_first_fault env start n :
  no_faults env -> first_fault env start n = None.
Proof. intros H. apply first_fault_None. intros k _. apply H. Qed.

Lemma record_existing_app l1 l2 m :
  record_existing (l1 ++ l2) m = record_existing l2 (record_existing l1 m).
Proof. unfold record_existing. apply fold_left_app. Qed.

(** What the loop does, call by call: it stops at the first failing
    query, and otherwise has recorded the answers to all chunks. *)
Lemma dedup_loop_run fuel : forall ids i m env w,
  length ids - i <= fuel ->
  dedup_loop fuel ids i m env w =
  match first_fault env (length (trace w)) (length (chunks fuel ids i)) with
  | Some k =>
      (mkWorld (store w)
               (trace w ++ map QueryOpenAlertsIn
                               (take (S (k - length (trace w))) (chunks fuel ids i))),
       Throw (StoreError k))
  | None =>
      (mkWorld (store w) (trace w ++ map QueryOpenAlertsIn (chunks fuel ids i)),
       Ok (record_existing (existing_of (chunks fuel ids i) (store w)) m))
  end.
Proof.
  induction fuel as [|fuel IH]; intros ids i m env w Hfuel; simpl.
  - destruct (i <? length ids)%nat eqn:E.
    + apply Nat.ltb_lt in E. lia.
    + simpl. rewrite app_nil_r. destruct w; reflexivity.
  - destruct (i <? length ids)%nat eqn:E; simpl.
    2:{ rewrite app_nil_r. destruct w; reflexivity. }
    apply Nat.ltb_lt in E.
    destruct (faults env (length (trace w))) eqn:F.
    + erewrite bind_throw by (apply read_fail; exact F).
      rewrite Nat.sub_diag. simpl. reflexivity.
    + erewrite bind_ok by (apply read_ok; exact F).
      rewrite IH by (unfold chunkSize; lia). simpl. rewrite length_app. simpl.
      replace (length (trace w) + 1) with (S (length (trace w))) by lia.
      destruct (first_fault env (S (length (trace w))) _) as [k|] eqn:FF.
      * apply first_fault_Some in FF as (Hk & _ & _).
        rewrite <- app_assoc. simpl.
        replace (k - length (trace w)) with (S (k - S (length (trace w)))) by lia.
        reflexivity.
      * rewrite <- app_assoc. simpl. unfold existing_of. simpl.
        rewrite record_existing_app. reflexivity.
Qed.

Lemma slice_length {A} (l : list A) i :
  i < length l -> 1 <= length (slice l i (i + chunkSize)) <= chunkSize.
Proof.
  intros H. unfold slice. rewrite length_take, length_drop.
  replace (i + chunkSize - i) with chunkSize by lia. unfold chunkSize. lia.
Qed.

Lemma chunks_concat fuel : forall ids i,
  length ids - i <= fuel -> concat (chunks fuel ids i) = drop i ids.
Proof.
  induction fuel as [|fuel IH]; intros ids i Hfuel; simpl.
  - destruct (i <? length ids)%nat eqn:E; symmetry; apply drop_ge.
    + apply Nat.ltb_lt in E. lia.
    + apply Nat.ltb_ge in E. lia.
  - destruct (i <? length ids)%nat eqn:E.
    + simpl. rewrite IH by (unfold chunkSize; lia). unfold slice.
      replace (i + chunkSize - i) with chunkSize by lia.
      rewrite <- drop_drop. apply take_drop.
    + apply Nat.ltb_ge in E. symmetry. apply drop_ge. lia.
Qed.

Lemma chunks_bounded fuel : forall ids i,
  Forall (fun chunk => 1 <= length chunk <= chunkSize) (chunks fuel ids i).
Proof.
  induction fuel as [|fuel IH]; intros ids i; simpl.
  - destruct (i <? length ids)%nat; constructor.
  - destruct (i <? length ids)%nat eqn:E; [|constructor].
    apply Nat.ltb_lt in E. constructor; [apply slice_length; exact E | apply IH].
Qed.

Lemma chunks_length fuel : forall ids i,
  length ids - i <= fuel ->
  length (chunks fuel ids i) = (length ids - i + 9) / 10.
Proof.
  induction fuel as [|fuel IH]; intros ids i Hfuel; cbn [chunks].
  - destruct (i <? length ids)%nat eqn:E.
    + apply Nat.ltb_lt in E. lia.
    + apply Nat.ltb_ge in E. replace (length ids - i) with 0 by lia. reflexivity.
  - destruct (i <? length ids)%nat eqn:E.
    + apply Nat.ltb_lt in E. cbn [length]. rewrite IH by (unfold chunkSize; lia).
      unfold chunkSize. apply Nat2Z.inj.
      rewrite Nat2Z.inj_succ, !Nat2Z.inj_div. zify. Z.div_mod_to_equations. lia.
    + apply Nat.ltb_ge in E. replace (length ids - i) with 0 by lia. reflexivity.
Qed.

(** ** One run, call by call *)

Lemma commit_run batch env w :
  commit batch env w =
  let k := length (trace w) in
  if faults env k
  then (mkWorld (store w) (trace w ++ [Commit batch]), Throw (StoreError k))
  else match apply_batch (server_time env k) batch (store w) with
       | Some s' => (mkWorld s' (trace w ++ [Commit batch]), Ok tt)
       | None => (mkWorld (store w) (trace w ++ [Commit batch]), Throw (NotFound k))
       end.
Proof.
  unfold commit, call. cbn zeta.
  destruct (faults env _); [reflexivity|].
  destruct (apply_batch _ _ _); reflexivity.
Qed.

Lemma apply_alert_batch t atc : forall s,
  apply_batch t (alert_batch atc) s
  = Some (set_alerts (alerts s ++ map (fun a => stamp t (new_alert a)) atc) s).
Proof.
  induction atc as [|a atc IH]; intros s; simpl.
  - rewrite app_nil_r. destruct s; reflexivity.
  - rewrite IH. unfold add_alert, set_alerts. simpl. rewrite <- app_assoc. reflexivity.
Qed.

Lemma insert_as_alter {V} (f : V -> V) (m : gmap string V) id v :
  m !! id = Some v -> <[id := f v]> m = alter f id m.
Proof.
  intros H. apply map_eq. intros j. rewrite lookup_alter, lookup_insert.
  destruct (decide (id = j)) as [<-|]; [now rewrite H | reflexivity].
Qed.

Lemma apply_status_batch t atc : forall s,
  (forall a, In a atc -> is_Some (checkpoints s !! checkpointId a)) ->
  apply_batch t (status_batch atc) s
  = Some (set_checkpoints (mark_overdue t (map checkpointId atc) (checkpoints s)) s).
Proof.
  induction atc as [|a atc IH]; intros s Hdom;
    cbn [status_batch map apply_batch apply_write].
  - destruct s; reflexivity.
  - destruct (Hdom a (or_introl eq_refl)) as [c Hc]. rewrite Hc.
    fold (status_batch atc). rewrite IH.
    + rewrite (insert_as_alter _ _ _ _ Hc). reflexivity.
    + intros a' Hin. cbn [set_checkpoints checkpoints]. rewrite lookup_insert.
      destruct (decide (checkpointId a = checkpointId a')); [eauto|].
      apply Hdom. now right.
Qed.

Lemma in_alerts_to_create now docs m a :
  In a (alerts_to_create now docs m) ->
  exists doc, In doc docs /\ has m doc.1 = false /\ checkpointId a = doc.1
              /\ buildingId a = Checkpoint.building_id doc.2
              /\ hoursOverdue a = hours_between now (lastCleanedMs doc.2).
Proof.
  unfold alerts_to_create. rewrite in_map_iff. intros (doc & <- & Hin).
  apply filter_In in Hin as [Hin Hhas]. apply negb_true_iff in Hhas.
  exists doc. simpl. auto.
Qed.

Lemma to_create_known now s a :
  In a (to_create now s) -> is_Some (checkpoints s !! checkpointId a).
Proof.
  intros Hin. apply in_alerts_to_create in Hin as ([id c] & Hin & _ & -> & _).
  apply in_overdue_checkpoints in Hin as [Hc _]. simpl. eauto.
Qed.

(** A run does what [expected] says. *)
Lemma run_expected now env s :
  run (checkSlaCompliance now) env s = expected now env s.
Proof.
  unfold run, checkSlaCompliance, expected.
  destruct (faults env 0) eqn:F0.
  { erewrite bind_throw by (apply read_fail; exact F0). reflexivity. }
  erewrite bind_ok by (apply read_ok; exact F0). cbn [store trace app length].
  unfold to_create, dedup_chunks, overdue_now.
  destruct (overdue_checkpoints (threshold_of now) s) as [|d docs] eqn:Edocs; [reflexivity|].
  set (ids := map fst (d :: docs)).
  unfold bind at 1. rewrite dedup_loop_run by lia. cbn [store trace length].
  destruct (first_fault env 1 (length (chunks (length ids) ids 0))) as [k|] eqn:FF.
  { apply first_fault_Some in FF as (Hk & _ & _).
    replace (S (k - 1)) with k by lia. reflexivity. }
  cbn [app].
  destruct (alerts_to_create now (d :: docs) _) as [|a atc] eqn:Eatc; [reflexivity|].
  unfold bind. rewrite commit_run. cbn [store trace length]. cbn zeta.
  rewrite length_map.
  destruct (faults env (S (length (chunks (length ids) ids 0)))) eqn:F1; [reflexivity|].
  rewrite apply_alert_batch. rewrite commit_run. cbn [store trace length]. cbn zeta.
  rewrite length_app. cbn [length]. rewrite length_map.
  rewrite !Nat.add_1_r. rewrite <- !app_assoc. cbn [app].
  destruct (faults env (S (S (length (chunks (length ids) ids 0))))) eqn:F2.
  { unfold after_alerts, to_create, dedup_chunks, overdue_now. rewrite Edocs.
    fold ids. rewrite Eatc. reflexivity. }
  rewrite apply_status_batch.
  - unfold after_status, after_alerts, to_create, dedup_chunks, overdue_now.
    rewrite Edocs. fold ids. rewrite Eatc. reflexivity.
  - intros a' Hin. cbn [checkpoints set_alerts].
    apply (to_create_known now s). unfold to_create, dedup_chunks, overdue_now.
    rewrite Edocs. fold ids. rewrite Eatc. exact Hin.
Qed.

(** ** What the existence check finds *)

Lemma mem_In x l : mem x l = true <-> In x l.
Proof.
  unfold mem. rewrite existsb_exists. split.
  - intros (y & Hin & Heq). apply String.eqb_eq in Heq. now subst.
  - intros Hin. exists x. split; [trivial | apply String.eqb_refl].
Qed.

Lemma has_insert m k id :
  has (<[k := true]> m) id = String.eqb id k || has m id.
Proof.
  unfold has. rewrite lookup_insert.
  destruct (decide (k = id)) as [->|Hne].
  - now rewrite String.eqb_refl.
  - destruct (String.eqb_spec id k); [congruence | reflexivity].
Qed.

Lemma has_record_existing l : forall m id,
  has (record_existing l m) id = has m id || mem id (map Alert.checkpoint_id l).
Proof.
  induction l as [|a l IH]; intros m id; simpl.
  - now rewrite orb_false_r.
  - fold (record_existing l (<[Alert.checkpoint_id a := true]> m)).
    rewrite IH, has_insert.
    destruct (String.eqb id (Alert.checkpoint_id a)), (has m id); reflexivity.
Qed.

Lemma has_open_spec s id :
  has_open s id = true <->
  exists a, In a (alerts s) /\ Alert.checkpoint_id a = id /\ is_open_breach a = true.
Proof.
  unfold has_open. rewrite existsb_exists. split; intros (a & Hin & H); exists a.
  - apply andb_true_iff in H as [H1 H2]. apply String.eqb_eq in H1. auto.
  - destruct H as [-> H]. now rewrite String.eqb_refl, H.
Qed.

Lemma has_open_alerts_of s id :
  has_open s id = negb (Nat.eqb (length (open_alerts_of id s)) 0).
Proof.
  unfold has_open, open_alerts_of.
  induction (alerts s) as [|a l IH]; simpl; [reflexivity|].
  destruct (String.eqb (Alert.checkpoint_id a) id && is_open_breach a); simpl; auto.
Qed.

Lemma in_existing_of cs s a :
  In a (existing_of cs s) <->
  In a (alerts s) /\ is_open_breach a = true /\
  exists chunk, In chunk cs /\ In (Alert.checkpoint_id a) chunk.
Proof.
  unfold existing_of. rewrite in_concat. split.
  - intros (l & Hl & Ha). apply in_map_iff in Hl as (chunk & <- & Hchunk).
    unfold open_alerts_in in Ha. apply filter_In in Ha as [Hin H].
    apply andb_true_iff in H as [Hm Ho]. apply mem_In in Hm. eauto 6.
  - intros (Hin & Ho & chunk & Hchunk & Hm).
    exists (open_alerts_in chunk s). split; [apply in_map_iff; eauto|].
    unfold open_alerts_in. apply filter_In. split; [exact Hin|].
    apply andb_true_iff. split; [now apply mem_In | exact Ho].
Qed.

Lemma has_existing cs s id :
  In id (concat cs) ->
  has (record_existing (existing_of cs s) ∅) id = has_open s id.
Proof.
  intros Hid. rewrite has_record_existing. unfold has at 1. rewrite lookup_empty. simpl.
  apply in_concat in Hid as (chunk & Hchunk & Hid).
  apply eq_true_iff_eq. rewrite mem_In, has_open_spec, in_map_iff. split.
  - intros (a & <- & Ha). apply in_existing_of in Ha as (Hin & Ho & _). eauto.
  - intros (a & Hin & <- & Ho). exists a. split; [reflexivity|].
    apply in_existing_of. eauto 6.
Qed.

Lemma dedup_chunks_concat now s :
  concat (dedup_chunks now s) = map fst (overdue_now now s).
Proof. unfold dedup_chunks. cbn zeta. rewrite chunks_concat by lia. apply drop_0. Qed.

Lemma dedup_chunks_length now s :
  length (dedup_chunks now s) = (length (overdue_now now s) + 9) / 10.
Proof.
  unfold dedup_chunks. cbn zeta. rewrite chunks_length by lia.
  now rewrite Nat.sub_0_r, length_map.
Qed.

(** The checkpoints that get a new alert are the overdue ones without an
    open breach alert in the store, in the order of the query. *)
Lemma to_create_ids now s :
  map checkpointId (to_create now s)
  = map fst (List.filter (fun doc => negb (has_open s doc.1)) (overdue_now now s)).
Proof.
  unfold to_create, alerts_to_create. rewrite map_map. cbn [checkpointId].
  f_equal. apply filter_ext_in. intros doc Hin. f_equal.
  apply has_existing. rewrite dedup_chunks_concat. now apply in_map.
Qed.

Lemma in_to_create_ids now s id :
  In id (map checkpointId (to_create now s)) <->
  In id (map fst (overdue_now now s)) /\ has_open s id = false.
Proof.
  rewrite to_create_ids, !in_map_iff. split.
  - intros (doc & <- & Hin). apply filter_In in Hin as [Hin H].
    apply negb_true_iff in H. eauto.
  - intros ((doc & <- & Hin) & H). exists doc. split; [reflexivity|].
    apply filter_In. split; [exact Hin | now apply negb_true_iff].
Qed.

Lemma NoDup_to_create_ids now s : List.NoDup (map checkpointId (to_create now s)).
Proof.
  rewrite to_create_ids.
  pose proof (NoDup_overdue_ids (threshold_of now) s) as H. fold (overdue_now now s) in H.
  revert H. induction (overdue_now now s) as [|d l IH]; simpl; intros H; [constructor|].
  inversion H as [|? ? Hd Hl]; subst.
  destruct (negb (has_open s d.1)); simpl; auto.
  constructor; auto. intros Hin. apply Hd.
  apply in_map_iff in Hin as (d' & <- & Hin). apply in_map.
  apply filter_In in Hin. tauto.
Qed.

Lemma to_create_nil now s : overdue_now now s = [] -> to_create now s = [].
Proof. intros H. unfold to_create. now rewrite H. Qed.

Lemma filter_map_fst {A B} (p : A -> bool) (l : list (A * B)) :
  map fst (List.filter (fun d => p d.1) l) = List.filter p (map fst l).
Proof.
  induction l as [|[a b] l IH]; simpl; [reflexivity|].
  destruct (p a); simpl; now rewrite IH.
Qed.

Lemma queries_not_writes cs :
  List.filter is_write (map QueryOpenAlertsIn cs) = [].
Proof. induction cs; simpl; auto. Qed.

(** ** The existence check and failing queries *)

(** C3.  On a list of [n] identifiers the existence check, when none of
    its queries fails, issues [ceil(n/10)] queries (three for 25
    identifiers), one per chunk; the chunks have between 1 and 10
    identifiers and, put end to end, are the list; and the identifiers
    that go on to alert creation are the list without every identifier
    of an alert that some chunk's query returned. *)
Theorem dedup_chunked (ids : list string) (env : Env) (w : World) :
  (forall k, length (trace w) <= k < length (trace w) + (length ids + 9) / 10 ->
             faults env k = false) ->
  exists cs m,
    dedup_loop (length ids) ids 0 ∅ env w
    = (mkWorld (store w) (trace w ++ map QueryOpenAlertsIn cs), Ok m)
    /\ length cs = (length ids + 9) / 10
    /\ (length ids = 25 -> length cs = 3)
    /\ Forall (fun chunk => 1 <= length chunk <= 10) cs
    /\ concat cs = ids
    /\ forall now docs, map fst docs = ids ->
         map checkpointId (alerts_to_create now docs m)
         = List.filter
             (fun id => negb (mem id (map Alert.checkpoint_id (existing_of cs (store w)))))
             ids.
Proof.
  intros Hok.
  assert (Hlen : length (chunks (length ids) ids 0) = (length ids + 9) / 10).
  { rewrite chunks_length by lia. now rewrite Nat.sub_0_r. }
  exists (chunks (length ids) ids 0), (record_existing (existing_of (chunks (length ids) ids 0) (store w)) ∅).
  split; [|split; [|split; [|split; [|split]]]].
  - rewrite dedup_loop_run by lia.
    replace (first_fault env _ _) with (@None nat); [reflexivity|].
    symmetry. apply first_fault_None. rewrite Hlen. exact Hok.
  - exact Hlen.
  - intros H25. rewrite Hlen, H25. reflexivity.
  - apply chunks_bounded.
  - rewrite chunks_concat by lia. apply drop_0.
  - intros now docs <-. unfold alerts_to_create. rewrite map_map. cbn [checkpointId].
    rewrite <- (filter_map_fst (fun id => negb (mem id _))).
    f_equal. apply filter_ext. intros doc. f_equal.
    rewrite has_record_existing. unfold has at 1. now rewrite lookup_empty.
Qed.

(** C6.  If the first call to fail is the overdue query (call 0) or one
    of the chunk queries (calls 1 to [ceil(n/10)], [n] the number of
    overdue checkpoints), the run fails with that error, has issued no
    write, and leaves the store as it was. *)
Theorem query_failure_aborts (now : instant) (env : Env) (s : Store) (k : nat) :
  faults env k = true ->
  (forall j, j < k -> faults env j = false) ->
  k <= (length (overdue_now now s) + 9) / 10 ->
  let out := run (checkSlaCompliance now) env s in
  out.2 = Throw (StoreError k)
  /\ store out.1 = s
  /\ length (trace out.1) = S k
  /\ List.filter is_write (trace out.1) = [].
Proof.
  intros Fk Hbefore Hk out. unfold out. rewrite run_expected. unfold expected.
  destruct k as [|k].
  { rewrite Fk. cbn. auto. }
  rewrite (Hbefore 0) by lia.
  destruct (overdue_now now s) as [|d docs] eqn:Edocs.
  { cbn in Hk. lia. }
  rewrite <- Edocs in Hk. rewrite <- dedup_chunks_length in Hk.
  rewrite (first_fault_at env 1 _ (S k)); [|lia|exact Fk|exact Hbefore].
  cbn [fst snd store trace]. repeat split.
  - cbn [length]. rewrite length_map, length_take. lia.
  - cbn [List.filter is_write]. apply queries_not_writes.
Qed.

(** C7.  When the overdue query answers with no checkpoint, the run
    returns normally, the query is its only call, and the store is as it
    was. *)
Theorem empty_short_circuit (now : instant) (env : Env) (s : Store) :
  faults env 0 = false ->
  overdue_checkpoints (threshold_of now) s = [] ->
  run (checkSlaCompliance now) env s
  = (mkWorld s [QueryOverdueCheckpoints (threshold_of now)], Ok tt).
Proof.
  intros F0 Hnone. rewrite run_expected. unfold expected, overdue_now.
  now rewrite F0, Hnone.
Qed.

(** ** The store a run leaves *)

Lemma run_cases now env s :
  let out := run (checkSlaCompliance now) env s in
  (store out.1 = s /\ (out.2 = Ok tt -> to_create now s = []))
  \/ (exists t1, store out.1 = after_alerts t1 now s /\ out.2 <> Ok tt
                 /\ to_create now s <> [])
  \/ (exists t1 t2, store out.1 = after_status t2 now s (after_alerts t1 now s)
                    /\ out.2 = Ok tt /\ to_create now s <> []).
Proof.
  cbn zeta. rewrite run_expected. unfold expected.
  destruct (faults env 0); [left; split; [reflexivity | discriminate]|].
  destruct (overdue_now now s) eqn:Edocs.
  { left. split; [reflexivity|]. intros _. now apply to_create_nil. }
  destruct (first_fault env 1 _); [left; split; [reflexivity | discriminate]|].
  destruct (to_create now s) as [|a atc] eqn:Eatc; [left; split; reflexivity|].
  destruct (faults env _); [left; split; [reflexivity | discriminate]|].
  destruct (faults env _).
  - right. left. eexists. cbn [fst snd store]. repeat split; discriminate.
  - right. right. do 2 eexists. cbn [fst snd store]. repeat split; discriminate.
Qed.

Lemma added_by_run now env s a :
  In a (added s (store (run (checkSlaCompliance now) env s).1)) ->
  exists t a0, In a0 (to_create now s) /\ a = stamp t (new_alert a0).
Proof.
  unfold added.
  destruct (run_cases now env s) as [[-> _] | [(t1 & -> & _) | (t1 & t2 & -> & _)]].
  - rewrite drop_all. intros [].
  - unfold after_alerts. cbn [alerts set_alerts]. rewrite drop_app_length.
    intros Hin. apply in_map_iff in Hin as (a0 & <- & Hin). eauto.
  - unfold after_status, after_alerts. cbn [alerts set_checkpoints set_alerts].
    rewrite drop_app_length.
    intros Hin. apply in_map_iff in Hin as (a0 & <- & Hin). eauto.
Qed.

Lemma run_no_faults now env s :
  no_faults env -> (run (checkSlaCompliance now) env s).2 = Ok tt.
Proof.
  intros H. rewrite run_expected. unfold expected. rewrite !H.
  rewrite no_faults_first_fault by exact H.
  destruct (overdue_now now s); [reflexivity|].
  destruct (to_create now s); reflexivity.
Qed.

Lemma mark_overdue_lookup t ids : forall cps id,
  mark_overdue t ids cps !! id
  = (fun c => if mem id ids then with_status "OVERDUE" t c else c) <$> cps !! id.
Proof.
  induction ids as [|x ids IH]; intros cps id; cbn [mark_overdue fold_left].
  - cbn. now destruct (cps !! id).
  - fold (mark_overdue t ids (alter (with_status "OVERDUE" t) x cps)).
    rewrite IH, lookup_alter. cbn [mem existsb].
    destruct (decide (x = id)) as [->|Hne].
    + rewrite String.eqb_refl. cbn. destruct (cps !! id); cbn; [|reflexivity].
      now destruct (mem id ids).
    + destruct (String.eqb_spec id x); [congruence | reflexivity].
Qed.

(** ** Counting open alerts *)

Lemma count_open_app l1 l2 id :
  count_open (l1 ++ l2) id = count_open l1 id + count_open l2 id.
Proof. unfold count_open. now rewrite List.filter_app, length_app. Qed.

Lemma count_open_zero l id :
  count_open l id = 0 <->
  existsb (fun a => String.eqb (Alert.checkpoint_id a) id && is_open_breach a) l = false.
Proof.
  unfold count_open. induction l as [|a l IH]; simpl; [tauto|].
  destruct (String.eqb (Alert.checkpoint_id a) id && is_open_breach a); simpl.
  - split; [lia | discriminate].
  - exact IH.
Qed.

Lemma written_is_open t a : is_open_breach (stamp t (new_alert a)) = true.
Proof. reflexivity. Qed.

Lemma count_open_written t atc id :
  List.NoDup (map checkpointId atc) ->
  count_open (map (fun a => stamp t (new_alert a)) atc) id
  = if mem id (map checkpointId atc) then 1 else 0.
Proof.
  unfold count_open. induction atc as [|a atc IH]; intros Hnd; [reflexivity|].
  cbn [map] in Hnd. inversion Hnd as [|? ? Ha Hrest]; subst.
  cbn [map List.filter mem existsb]. fold (mem id (map checkpointId atc)).
  rewrite written_is_open. cbn [stamp new_alert Alert.checkpoint_id].
  rewrite (String.eqb_sym id).
  destruct (String.eqb_spec (checkpointId a) id) as [<-|Hne]; cbn [andb orb].
  - cbn [length]. rewrite IH by exact Hrest.
    destruct (mem (checkpointId a) (map checkpointId atc)) eqn:Hm; [|reflexivity].
    apply mem_In in Hm. contradiction.
  - apply IH. exact Hrest.
Qed.

Lemma alerts_after_status t now s0 s : alerts (after_status t now s0 s) = alerts s.
Proof. reflexivity. Qed.

Lemma has_open_count s id : has_open s id = false <-> count_open (alerts s) id = 0.
Proof. symmetry. apply count_open_zero. Qed.

Lemma open_alerts_of_count s id :
  length (open_alerts_of id s) = count_open (alerts s) id.
Proof. reflexivity. Qed.

Lemma at_most_one_after_alerts t now s :
  at_most_one_open s -> at_most_one_open (after_alerts t now s).
Proof.
  intros Hinv id. rewrite open_alerts_of_count. unfold after_alerts. cbn [alerts set_alerts].
  rewrite count_open_app, count_open_written by apply NoDup_to_create_ids.
  specialize (Hinv id). rewrite open_alerts_of_count in Hinv.
  destruct (mem id (map checkpointId (to_create now s))) eqn:Hm; [|lia].
  apply mem_In, in_to_create_ids in Hm as [_ Hm].
  apply has_open_count in Hm. lia.
Qed.

Lemma at_most_one_same_alerts s s' :
  alerts s' = alerts s -> at_most_one_open s -> at_most_one_open s'.
Proof. intros H Hinv id. unfold open_alerts_of. rewrite H. apply Hinv. Qed.

Lemma has_open_same_alerts s s' id :
  alerts s' = alerts s -> has_open s' id = has_open s id.
Proof. intros H. unfold has_open. now rewrite H. Qed.

Lemma has_open_after_alerts t now s id :
  In id (map fst (overdue_now now s)) -> has_open (after_alerts t now s) id = true.
Proof.
  intros Hid. destruct (has_open (after_alerts t now s) id) eqn:H; [reflexivity|].
  apply has_open_count in H. unfold after_alerts in H. cbn [alerts set_alerts] in H.
  rewrite count_open_app, count_open_written in H by apply NoDup_to_create_ids.
  destruct (mem id (map checkpointId (to_create now s))) eqn:Hm; [lia|].
  assert (Hopen : has_open s id = false) by (apply has_open_count; lia).
  assert (Hin : In id (map checkpointId (to_create now s))) by (apply in_to_create_ids; auto).
  apply mem_In in Hin. congruence.
Qed.

(** The overdue query looks at [is_active] and [last_cleaned_timestamp]
    only, which a status update keeps. *)
Lemma overdue_ids_after_status thr t now s0 s id :
  In id (map fst (overdue_checkpoints thr (after_status t now s0 s))) <->
  In id (map fst (overdue_checkpoints thr s)).
Proof.
  rewrite !in_map_iff. split.
  - intros ([id' c'] & <- & Hin).
    apply in_overdue_checkpoints in Hin as (Hc & Hact & Hts).
    unfold after_status in Hc. cbn [checkpoints set_checkpoints] in Hc.
    rewrite mark_overdue_lookup in Hc.
    destruct (checkpoints s !! id') as [c|] eqn:Ec; [|discriminate].
    cbn in Hc. injection Hc as <-. exists (id', c). split; [reflexivity|].
    apply in_overdue_checkpoints. split; [exact Ec|].
    destruct (mem id' _); auto.
  - intros ([id' c] & <- & Hin).
    apply in_overdue_checkpoints in Hin as (Hc & Hact & Hts).
    exists (id', if mem id' (map checkpointId (to_create now s0))
                 then with_status "OVERDUE" t c else c).
    split; [reflexivity|].
    apply in_overdue_checkpoints. split.
    + unfold after_status. cbn [checkpoints set_checkpoints].
      rewrite mark_overdue_lookup, Hc. reflexivity.
    + destruct (mem id' _); auto.
Qed.

Lemma to_create_none now s :
  (forall id, In id (map fst (overdue_now now s)) -> has_open s id = true) ->
  to_create now s = [].
Proof.
  intros H. destruct (to_create now s) as [|a l] eqn:E; [reflexivity|].
  assert (Hin : In (checkpointId a) (map checkpointId (to_create now s))).
  { rewrite E. now left. }
  apply in_to_create_ids in Hin as [Hin Hopen]. rewrite H in Hopen by exact Hin.
  discriminate.
Qed.

Lemma run_idle now env s :
  no_faults env -> to_create now s = [] ->
  (run (checkSlaCompliance now) env s).2 = Ok tt
  /\ store (run (checkSlaCompliance now) env s).1 = s.
Proof.
  intros Hnf Hnone. split; [now apply run_no_faults|].
  destruct (run_cases now env s) as [[Hs _] | [(t1 & _ & _ & Hne) | (t1 & t2 & _ & _ & Hne)]];
    [exact Hs | contradiction | contradiction].
Qed.

Lemma count_open_positive s id :
  has_open s id = true -> 1 <= length (open_alerts_of id s).
Proof.
  intros H. rewrite open_alerts_of_count.
  destruct (count_open (alerts s) id) eqn:E; [|lia].
  apply has_open_count in E. congruence.
Qed.

(** Whichever calls fail, a run keeps the invariant. *)
Lemma run_keeps_invariant now env s :
  at_most_one_open s -> at_most_one_open (store (run (checkSlaCompliance now) env s).1).
Proof.
  intros Hinv.
  destruct (run_cases now env s) as [[-> _] | [(t1 & -> & _) | (t1 & t2 & -> & _)]].
  - exact Hinv.
  - now apply at_most_one_after_alerts.
  - eapply at_most_one_same_alerts; [apply alerts_after_status|].
    now apply at_most_one_after_alerts.
Qed.

(** A run adds alerts at the end, for checkpoints without an open one. *)
Lemma run_adds now env s :
  alerts (store (run (checkSlaCompliance now) env s).1)
  = alerts s ++ added s (store (run (checkSlaCompliance now) env s).1)
  /\ forall a, In a (added s (store (run (checkSlaCompliance now) env s).1)) ->
               is_open_breach a = true /\ has_open s (Alert.checkpoint_id a) = false.
Proof.
  split.
  - unfold added.
    destruct (run_cases now env s) as [[-> _] | [(t1 & -> & _) | (t1 & t2 & -> & _)]].
    + now rewrite drop_all, app_nil_r.
    + unfold after_alerts. cbn [alerts set_alerts]. now rewrite drop_app_length.
    + unfold after_status, after_alerts. cbn [alerts set_checkpoints set_alerts].
      now rewrite drop_app_length.
  - intros a Ha. apply added_by_run in Ha as (t & a0 & Hin & ->).
    split; [apply written_is_open|].
    cbn [stamp new_alert Alert.checkpoint_id].
    apply (in_to_create_ids now). apply in_map. exact Hin.
Qed.

Lemma has_open_kept now env s id :
  has_open s id = true -> has_open (store (run (checkSlaCompliance now) env s).1) id = true.
Proof.
  intros H. unfold has_open. rewrite (proj1 (run_adds now env s)), existsb_app.
  fold (has_open s id). now rewrite H.
Qed.

(** After a run without faults every overdue checkpoint has an open
    breach alert. *)
Lemma run_covers now env s id :
  no_faults env -> In id (map fst (overdue_now now s)) ->
  has_open (store (run (checkSlaCompliance now) env s).1) id = true.
Proof.
  intros Hnf Hid. pose proof (run_no_faults now env s Hnf) as Hok.
  destruct (run_cases now env s)
    as [[-> Hnone] | [(t1 & _ & Hne & _) | (t1 & t2 & -> & _)]].
  - destruct (has_open s id) eqn:Hopen; [reflexivity|].
    assert (Hin : In id (map checkpointId (to_create now s)))
      by (apply in_to_create_ids; auto).
    rewrite Hnone in Hin by exact Hok. destruct Hin.
  - contradiction.
  - erewrite has_open_same_alerts by apply alerts_after_status.
    now apply has_open_after_alerts.
Qed.

(** A run does not change which checkpoints a query finds overdue. *)
Lemma run_keeps_overdue now env s thr id :
  In id (map fst (overdue_checkpoints thr (store (run (checkSlaCompliance now) env s).1)))
  <-> In id (map fst (overdue_checkpoints thr s)).
Proof.
  destruct (run_cases now env s) as [[-> _] | [(t1 & -> & _) | (t1 & t2 & -> & _)]];
    [reflexivity | reflexivity |].
  rewrite overdue_ids_after_status. reflexivity.
Qed.

(** C1.  A run keeps the store free of a second open breach alert for
    any checkpoint, whichever calls fail, and the alerts it adds are for
    checkpoints that had no open breach alert.  When two runs without
    faults follow one another, the second adds no alert for a checkpoint
    that was overdue at the first, and afterwards every checkpoint
    overdue at either run has exactly one open breach alert; when no
    further checkpoint has become overdue in between, the second run
    adds no alert at all and leaves the store as it is. *)
Theorem one_open_alert_per_checkpoint (now : instant) (env : Env) (s : Store) :
  at_most_one_open s ->
  let s1 := store (run (checkSlaCompliance now) env s).1 in
  at_most_one_open s1
  /\ (alerts s1 = alerts s ++ added s s1
      /\ forall a, In a (added s s1) -> has_open s (Alert.checkpoint_id a) = false)
  /\ (no_faults env ->
      forall env2 now2,
        no_faults env2 ->
        let out2 := run (checkSlaCompliance now2) env2 s1 in
        out2.2 = Ok tt
        /\ (forall id, In id (map fst (overdue_now now s)) ->
              length (open_alerts_of id (store out2.1)) = 1
              /\ ~ In id (map Alert.checkpoint_id (added s1 (store out2.1))))
        /\ (forall id, In id (map fst (overdue_now now2 s)) ->
              length (open_alerts_of id (store out2.1)) = 1)
        /\ ((forall id, In id (map fst (overdue_now now2 s)) ->
                        In id (map fst (overdue_now now s))) ->
            store out2.1 = s1)).
Proof.
  intros Hinv s1.
  pose proof (run_keeps_invariant now env s Hinv) as Hinv1. fold s1 in Hinv1.
  split; [exact Hinv1|]. split.
  { split; [apply run_adds|]. intros a Ha. now apply run_adds in Ha. }
  intros Hnf env2 now2 Hnf2 out2.
  pose proof (run_keeps_invariant now2 env2 s1 Hinv1) as Hinv2.
  assert (Hone : forall id, has_open (store out2.1) id = true ->
                            length (open_alerts_of id (store out2.1)) = 1).
  { intros id H. apply Nat.le_antisymm; [apply Hinv2 | now apply count_open_positive]. }
  split; [now apply run_no_faults|]. split; [|split].
  - intros id Hid.
    pose proof (run_covers now env s id Hnf Hid) as Hopen1. fold s1 in Hopen1.
    split; [apply Hone; now apply has_open_kept|].
    intros Hin. apply in_map_iff in Hin as (a & <- & Ha).
    apply (run_adds now2 env2 s1) in Ha as [_ Ha]. congruence.
  - intros id Hid. apply Hone. apply run_covers; [exact Hnf2|].
    unfold overdue_now, s1. now apply run_keeps_overdue.
  - intros Hsub. apply run_idle; [exact Hnf2|].
    apply to_create_none. intros id Hid.
    apply (run_covers now env s id Hnf), Hsub.
    unfold overdue_now, s1 in Hid. now apply run_keeps_overdue in Hid.
Qed.

(** ** The overdue query and the status update *)

Lemma checked_ids_queries cs : checked_ids (map QueryOpenAlertsIn cs) = concat cs.
Proof.
  unfold checked_ids. induction cs as [|c cs IH]; [reflexivity|].
  cbn [map flat_map concat]. now rewrite IH.
Qed.

Lemma checked_ids_after_query threshold cs :
  checked_ids (QueryOverdueCheckpoints threshold :: map QueryOpenAlertsIn cs) = concat cs.
Proof. apply checked_ids_queries. Qed.

Lemma checked_ids_app tr1 tr2 : checked_ids (tr1 ++ tr2) = checked_ids tr1 ++ checked_ids tr2.
Proof. unfold checked_ids. apply flat_map_app. Qed.

Lemma in_overdue_ids now s id :
  In id (map fst (overdue_now now s)) <-> cleaned_before (threshold_of now) s id.
Proof.
  unfold overdue_now, cleaned_before. rewrite in_map_iff. split.
  - intros ([id' c] & <- & Hin). apply in_overdue_checkpoints in Hin. eauto.
  - intros (c & H). exists (id, c). split; [reflexivity|].
    now apply in_overdue_checkpoints.
Qed.

(** The ways a run ends, with the calls it has issued. *)
Lemma run_traces now env s :
  let out := run (checkSlaCompliance now) env s in
  let q0 := QueryOverdueCheckpoints (threshold_of now) in
  let cs := dedup_chunks now s in
  let atc := to_create now s in
  (store out.1 = s /\ out.2 <> Ok tt)
  \/ (store out.1 = s /\ out.2 = Ok tt /\ atc = []
      /\ checked_ids (trace out.1) = map fst (overdue_now now s))
  \/ (exists t1, store out.1 = after_alerts t1 now s /\ atc <> []
        /\ trace out.1 = (q0 :: map QueryOpenAlertsIn cs)
                         ++ [Commit (alert_batch atc); Commit (status_batch atc)]
        /\ out.2 = Throw (StoreError (S (S (length cs))))
        /\ faults env (S (S (length cs))) = true)
  \/ (exists t1 t2, store out.1 = after_status t2 now s (after_alerts t1 now s)
        /\ atc <> []
        /\ trace out.1 = (q0 :: map QueryOpenAlertsIn cs)
                         ++ [Commit (alert_batch atc); Commit (status_batch atc)]
        /\ out.2 = Ok tt).
Proof.
  cbn zeta. rewrite run_expected. unfold expected.
  destruct (faults env 0); [left; split; [reflexivity | discriminate]|].
  destruct (overdue_now now s) as [|d docs] eqn:Edocs.
  { right. left. split; [reflexivity|]. split; [reflexivity|].
    split; [apply to_create_nil; exact Edocs | reflexivity]. }
  rewrite <- Edocs.
  destruct (first_fault env 1 _); [left; split; [reflexivity | discriminate]|].
  destruct (to_create now s) as [|a atc] eqn:Eatc.
  { right. left. split; [reflexivity|]. split; [reflexivity|]. split; [reflexivity|].
    cbn [trace fst]. rewrite checked_ids_after_query. apply dedup_chunks_concat. }
  destruct (faults env (S (length _))); [left; split; [reflexivity | discriminate]|].
  destruct (faults env (S (S (length _)))) eqn:F2.
  - right. right. left. eexists. split; [reflexivity|]. split; [discriminate|].
    split; [reflexivity|]. split; reflexivity.
  - right. right. right. do 2 eexists. split; [reflexivity|]. split; [discriminate|].
    split; reflexivity.
Qed.

Lemma checked_ids_full now s atc :
  checked_ids ((QueryOverdueCheckpoints (threshold_of now)
                :: map QueryOpenAlertsIn (dedup_chunks now s))
               ++ [Commit (alert_batch atc); Commit (status_batch atc)])
  = map fst (overdue_now now s).
Proof.
  rewrite checked_ids_app, checked_ids_after_query, dedup_chunks_concat.
  apply app_nil_r.
Qed.

(** A run that returns normally has asked about the overdue checkpoints
    and added an alert for those of [to_create]. *)
Lemma run_returned now env s :
  (run (checkSlaCompliance now) env s).2 = Ok tt ->
  checked_ids (trace (run (checkSlaCompliance now) env s).1) = map fst (overdue_now now s)
  /\ map Alert.checkpoint_id (added s (store (run (checkSlaCompliance now) env s).1))
     = map checkpointId (to_create now s).
Proof.
  intros Hok. unfold added.
  destruct (run_traces now env s)
    as [[_ Hne] | [(-> & _ & -> & Hids) | [(t1 & _ & _ & _ & Hthrow & _)
                                            | (t1 & t2 & -> & _ & -> & _)]]].
  - contradiction.
  - split; [exact Hids|]. now rewrite drop_all.
  - rewrite Hthrow in Hok. discriminate.
  - split; [apply checked_ids_full|].
    unfold after_status, after_alerts. cbn [alerts set_checkpoints set_alerts].
    rewrite drop_app_length, map_map. reflexivity.
Qed.

(** C2.  The cutoff of a run at [now] is [now] minus four hours, and the
    run's first call is the overdue query at that cutoff.  The answer the
    run works on is exactly the checkpoints that are active and were last
    cleaned strictly before the cutoff: a run that no call fails returns
    normally, and a run that returns normally has asked the existence
    queries about exactly these checkpoints and has added an alert for
    exactly those of them without an open alert.  A checkpoint cleaned at
    the cutoff is not among them and gets no alert; an active one cleaned
    a millisecond earlier is among them and has an open alert after the
    run. *)
Theorem overdue_query_exact (now : instant) (env : Env) (s : Store) :
  let cutoff := threshold_of now in
  let out := run (checkSlaCompliance now) env s in
  let flagged := map Alert.checkpoint_id (added s (store out.1)) in
  cutoff = (now - FOUR_HOURS_MS)%Z
  /\ hd_error (trace out.1) = Some (QueryOverdueCheckpoints cutoff)
  /\ (forall id c,
        In (id, c) (overdue_checkpoints cutoff s) <->
        checkpoints s !! id = Some c /\ Checkpoint.is_active c = true /\
        exists t, Checkpoint.last_cleaned_timestamp c = Some t /\ (t < cutoff)%Z)
  /\ (forall id c, checkpoints s !! id = Some c ->
        Checkpoint.last_cleaned_timestamp c = Some cutoff ->
        ~ In (id, c) (overdue_checkpoints cutoff s))
  /\ (forall id c, checkpoints s !! id = Some c ->
        Checkpoint.is_active c = true ->
        Checkpoint.last_cleaned_timestamp c = Some (cutoff - 1)%Z ->
        In (id, c) (overdue_checkpoints cutoff s))
  /\ (no_faults env -> out.2 = Ok tt)
  /\ (out.2 = Ok tt ->
      (forall id, In id (checked_ids (trace out.1)) <-> cleaned_before cutoff s id)
      /\ (forall id, In id flagged <-> cleaned_before cutoff s id /\ has_open s id = false)
      /\ (forall id c, checkpoints s !! id = Some c ->
            Checkpoint.last_cleaned_timestamp c = Some cutoff ->
            ~ In id (checked_ids (trace out.1)) /\ ~ In id flagged)
      /\ (forall id c, checkpoints s !! id = Some c ->
            Checkpoint.is_active c = true ->
            Checkpoint.last_cleaned_timestamp c = Some (cutoff - 1)%Z ->
            In id (checked_ids (trace out.1))
            /\ (has_open s id = false -> In id flagged)
            /\ (no_faults env -> has_open (store out.1) id = true))).
Proof.
  intros cutoff out flagged. split; [|split; [|split; [|split; [|split; [|split]]]]].
  - unfold cutoff, threshold_of, DEFAULT_MAX_GAP_HOURS, FOUR_HOURS_MS. lia.
  - unfold out. rewrite run_expected. unfold expected. fold cutoff.
    destruct (faults env 0); [reflexivity|].
    destruct (overdue_now now s); [reflexivity|].
    destruct (first_fault env 1 _); [reflexivity|].
    destruct (to_create now s); [reflexivity|].
    destruct (faults env _); [reflexivity|].
    destruct (faults env _); reflexivity.
  - intros id c. apply in_overdue_checkpoints.
  - intros id c _ Hts Hin. apply in_overdue_checkpoints in Hin as (_ & _ & t & Ht & Hlt).
    rewrite Hts in Ht. injection Ht as <-. lia.
  - intros id c Hc Hact Hts. apply in_overdue_checkpoints.
    split; [exact Hc|]. split; [exact Hact|]. exists (cutoff - 1)%Z. split; [exact Hts | lia].
  - apply run_no_faults.
  - intros Hok. destruct (run_returned now env s Hok) as [Hchecked Hadded].
    fold out in Hchecked, Hadded. fold flagged in Hadded.
    assert (H1 : forall id, In id (checked_ids (trace out.1)) <-> cleaned_before cutoff s id).
    { intros id. rewrite Hchecked. apply in_overdue_ids. }
    assert (H2 : forall id, In id flagged <-> cleaned_before cutoff s id /\ has_open s id = false).
    { intros id. rewrite Hadded, in_to_create_ids, in_overdue_ids. reflexivity. }
    split; [exact H1|]. split; [exact H2|]. split.
    + intros id c Hc Hts.
      assert (Hnot : ~ cleaned_before cutoff s id).
      { intros (c' & Hc' & _ & t & Ht & Hlt). rewrite Hc in Hc'. injection Hc' as <-.
        rewrite Hts in Ht. injection Ht as <-. lia. }
      split; [now rewrite H1 | rewrite H2; tauto].
    + intros id c Hc Hact Hts.
      assert (Hyes : cleaned_before cutoff s id).
      { exists c. split; [exact Hc|]. split; [exact Hact|].
        exists (cutoff - 1)%Z. split; [exact Hts | lia]. }
      split; [now apply H1|]. split; [intros Hopen; now apply H2|].
      intros Hnf. apply run_covers; [exact Hnf|]. now apply in_overdue_ids.
Qed.

(** C8.  A run deletes no checkpoint and adds none, and keeps every
    checkpoint's last-cleaned instant, active flag, building and
    last-cleaned text.  When it returns normally, the checkpoints for
    which it added an alert have status OVERDUE and every other
    checkpoint is as it was; when it fails, no checkpoint has changed.
    A run that no call fails returns normally, and a run that returns
    normally has added an alert for exactly the overdue checkpoints
    without an open alert.  Whenever a run has added alerts, the alert
    batch was committed and the next and last call is the batch of one
    status update to OVERDUE per alerted checkpoint, in the same order;
    the run then returns normally unless that call failed. *)
Theorem status_update_frame (now : instant) (env : Env) (s : Store) :
  let out := run (checkSlaCompliance now) env s in
  let s' := store out.1 in
  let created := map Alert.checkpoint_id (drop (length (alerts s)) (alerts s')) in
  (forall id, checkpoints s !! id = None -> checkpoints s' !! id = None)
  /\ (forall id c, checkpoints s !! id = Some c ->
        exists c', checkpoints s' !! id = Some c'
          /\ Checkpoint.last_cleaned_timestamp c' = Checkpoint.last_cleaned_timestamp c
          /\ Checkpoint.is_active c' = Checkpoint.is_active c
          /\ Checkpoint.building_id c' = Checkpoint.building_id c
          /\ Checkpoint.last_cleaned_at c' = Checkpoint.last_cleaned_at c)
  /\ (out.2 = Ok tt ->
      forall id c, checkpoints s !! id = Some c ->
        exists c', checkpoints s' !! id = Some c'
          /\ if mem id created then Checkpoint.current_status c' = "OVERDUE" else c' = c)
  /\ (out.2 <> Ok tt -> checkpoints s' = checkpoints s)
  /\ (no_faults env -> out.2 = Ok tt)
  /\ (out.2 = Ok tt ->
      forall id, In id created <->
                 cleaned_before (threshold_of now) s id /\ has_open s id = false)
  /\ (created <> [] ->
      exists queries batch,
        trace out.1
        = queries ++ [Commit batch;
                      Commit (map (fun id => UpdateCheckpoint id "OVERDUE") created)]
        /\ List.filter is_write queries = []
        /\ length batch = length created
        /\ (out.2 = Ok tt
            \/ out.2 = Throw (StoreError (S (length queries)))
               /\ faults env (S (length queries)) = true)).
Proof.
  cbn zeta. split; [|split; [|split; [|split; [|split; [|split]]]]].
  1-4: destruct (run_cases now env s)
         as [[-> Hnone] | [(t1 & -> & Hne & _) | (t1 & t2 & -> & Hok & _)]].
  - auto.
  - auto.
  - unfold after_status. cbn [checkpoints set_checkpoints after_alerts set_alerts alerts].
    intros id Hc. rewrite mark_overdue_lookup, Hc. reflexivity.
  - eauto 6.
  - intros id c Hc; exists c; cbn; auto.
  - unfold after_status. cbn [checkpoints set_checkpoints after_alerts set_alerts alerts].
    intros id c Hc. rewrite mark_overdue_lookup, Hc. cbn.
    eexists. split; [reflexivity|]. destruct (mem id _); auto.
  - intros _ id c Hc. exists c. split; [exact Hc|].
    rewrite drop_all. reflexivity.
  - contradiction.
  - unfold after_status. cbn [checkpoints set_checkpoints after_alerts set_alerts alerts].
    rewrite drop_app_length, map_map. cbn [stamp new_alert Alert.checkpoint_id].
    intros _ id c Hc. rewrite mark_overdue_lookup, Hc. cbn.
    eexists. split; [reflexivity|]. destruct (mem id _); reflexivity.
  - reflexivity.
  - reflexivity.
  - contradiction.
  - apply run_no_faults.
  - intros Hok id. destruct (run_returned now env s Hok) as [_ Hadded].
    unfold added in Hadded. rewrite Hadded, in_to_create_ids, in_overdue_ids.
    reflexivity.
  - destruct (run_traces now env s)
      as [[-> _] | [(-> & _) | [(t1 & -> & Hne & -> & -> & F)
                                 | (t1 & t2 & -> & Hne & -> & ->)]]].
    + rewrite drop_all. intros []. reflexivity.
    + rewrite drop_all. intros []. reflexivity.
    + intros _. unfold after_alerts. cbn [alerts set_alerts].
      rewrite drop_app_length, map_map. cbn [stamp new_alert Alert.checkpoint_id].
      exists (QueryOverdueCheckpoints (threshold_of now)
              :: map QueryOpenAlertsIn (dedup_chunks now s)), (alert_batch (to_create now s)).
      split; [|split; [|split]].
      * unfold status_batch. now rewrite map_map.
      * cbn [List.filter is_write]. apply queries_not_writes.
      * unfold alert_batch. now rewrite !length_map.
      * right. cbn [length]. rewrite length_map. split; [reflexivity | exact F].
    + intros _. unfold after_status, after_alerts. cbn [alerts set_checkpoints set_alerts].
      rewrite drop_app_length, map_map. cbn [stamp new_alert Alert.checkpoint_id].
      exists (QueryOverdueCheckpoints (threshold_of now)
              :: map QueryOpenAlertsIn (dedup_chunks now s)), (alert_batch (to_create now s)).
      split; [|split; [|split]].
      * unfold status_batch. now rewrite map_map.
      * cbn [List.filter is_write]. apply queries_not_writes.
      * unfold alert_batch. now rewrite !length_map.
      * now left.
Qed.

(** ** Write batches *)

(** C5, as stated, fails: with 501 overdue checkpoints and no open
    alert, the run commits a write batch of 501 operations. *)
Lemma oversized_batch :
  let tr := trace (run (checkSlaCompliance 1700000000000%Z) quiet (stale_store 501)).1 in
  batches_within 500 tr = false /\ has_batch_of 501 tr = true.
Proof. vm_compute. split; reflexivity. Qed.

(** C5, amended.  The new alert records of a run go into one write
    batch, one set operation per alert, however many there are; the
    status updates follow in a second batch of the same size.  No other
    write is issued, and a run that returns normally with alerts to
    create has committed both. *)
Theorem alerts_in_one_batch (now : instant) (env : Env) (s : Store) :
  let out := run (checkSlaCompliance now) env s in
  let atc := to_create now s in
  length (alert_batch atc) = length atc
  /\ length (status_batch atc) = length atc
  /\ (exists n, List.filter is_write (trace out.1)
                = take n [Commit (alert_batch atc); Commit (status_batch atc)])
  /\ (out.2 = Ok tt -> atc <> [] ->
      List.filter is_write (trace out.1)
      = [Commit (alert_batch atc); Commit (status_batch atc)]
      /\ exists t, alerts (store out.1)
                   = alerts s ++ map (fun a => stamp t (new_alert a)) atc).
Proof.
  cbn zeta. split; [apply length_map|]. split; [apply length_map|].
  rewrite run_expected. unfold expected.
  assert (Hq : forall cs tl,
             List.filter is_write
               ((QueryOverdueCheckpoints (threshold_of now) :: map QueryOpenAlertsIn cs) ++ tl)
             = List.filter is_write tl).
  { intros cs tl. rewrite List.filter_app. cbn [List.filter is_write].
    now rewrite queries_not_writes. }
  destruct (faults env 0).
  { split; [exists 0; reflexivity | discriminate]. }
  destruct (overdue_now now s) eqn:Edocs.
  { split; [exists 0; reflexivity|]. intros _ Hne.
    rewrite to_create_nil in Hne by exact Edocs. contradiction. }
  destruct (first_fault env 1 _).
  { split; [|discriminate]. exists 0. cbn [fst trace List.filter is_write].
    apply queries_not_writes. }
  destruct (to_create now s) as [|a atc] eqn:Eatc.
  { split; [|contradiction]. exists 0. cbn [fst trace List.filter is_write].
    apply queries_not_writes. }
  destruct (faults env _).
  { split; [|discriminate]. exists 1. cbn [fst trace]. now rewrite Hq. }
  destruct (faults env _).
  { split; [|discriminate]. exists 2. cbn [fst trace]. now rewrite Hq. }
  split; [exists 2; cbn [fst trace]; now rewrite Hq|].
  intros _ _. cbn [fst trace store]. rewrite Hq. split; [reflexivity|].
  eexists. unfold after_status, after_alerts. cbn [alerts set_checkpoints set_alerts].
  rewrite Eatc. reflexivity.
Qed.

(** ** Hours overdue *)

Local Open Scope Z_scope.

(** Rounding to 53 bits moves the quotient by at most half a unit in the
    last place. *)
Lemma fdiv_pos_near a b :
  0 < a -> 0 < b ->
  let x := fdiv_pos a b in
  let num := a * 2 ^ Z.max (scale x) 0 in
  let den := b * 2 ^ Z.max (- scale x) 0 in
  2 * Z.abs (den * sig x - num) <= den.
Proof.
  intros Ha Hb. unfold fdiv_pos. cbn zeta. cbn [sig scale].
  set (k := 52 - _).
  set (num := a * 2 ^ Z.max k 0). set (den := b * 2 ^ Z.max (- k) 0).
  assert (Hden : 0 < den).
  { unfold den. apply Z.mul_pos_pos; [exact Hb|]. apply Z.pow_pos_nonneg; lia. }
  pose proof (Z.div_mod num den ltac:(lia)) as Hdm.
  pose proof (Z.mod_pos_bound num den Hden) as Hr.
  destruct (2 * (num mod den) <? den) eqn:E1.
  - apply Z.ltb_lt in E1. lia.
  - apply Z.ltb_ge in E1. destruct (den <? 2 * (num mod den)) eqn:E2.
    + apply Z.ltb_lt in E2. lia.
    + apply Z.ltb_ge in E2. destruct (Z.even (num / den)); lia.
Qed.

Lemma fdiv_pos_scale a b :
  0 < a -> 0 < b -> Z.log2 a - Z.log2 b <= 52 - scale (fdiv_pos a b) + 1
                    /\ 52 - scale (fdiv_pos a b) <= Z.log2 a - Z.log2 b.
Proof.
  intros Ha Hb. unfold fdiv_pos. cbn zeta. cbn [scale].
  destruct (Z.leb _ _); lia.
Qed.

(** The hundredths kept are a nearest multiple of 1/100 hour to the exact
    quotient, for any difference a double holds exactly. *)
Lemma hours_between_nearest now last :
  Z.abs (now - last) < 2 ^ 53 ->
  Z.abs (36000 * hours_between now last - (now - last)) <= 18000.
Proof.
  intros Hd. unfold hours_between. cbn zeta.
  destruct (now - last =? 0) eqn:E0.
  { apply Z.eqb_eq in E0. rewrite E0. cbn. lia. }
  apply Z.eqb_neq in E0.
  set (d := now - last) in *. set (a := Z.abs d).
  assert (Ha : 0 < a) by (unfold a; lia).
  change (1000 * 60 * 60) with 3600000.
  pose proof (fdiv_pos_near a 3600000 Ha ltac:(lia)) as Hnear.
  pose proof (fdiv_pos_scale a 3600000 Ha ltac:(lia)) as [_ Hscale].
  cbn zeta in Hnear. unfold toFixed2_pos.
  set (x := fdiv_pos a 3600000) in *.
  change (Z.log2 3600000) with 21 in Hscale.
  assert (Hlog : Z.log2 a < 53) by (apply Z.log2_lt_pow2; [exact Ha | exact Hd]).
  assert (Hk : 21 <= scale x) by lia.
  rewrite (Z.max_l (scale x) 0) in * by lia.
  rewrite (Z.max_r (- scale x) 0) in * by lia.
  change (2 ^ 0) with 1 in *. rewrite !Z.mul_1_r in *.
  assert (HK : 2 ^ 21 <= 2 ^ scale x) by (apply Z.pow_le_mono_r; lia).
  change (2 ^ 21) with 2097152 in HK.
  set (K := 2 ^ scale x) in *.
  set (m := sig x) in *.
  pose proof (Z.div_mod (200 * m + K) (2 * K) ltac:(lia)) as Hdm.
  pose proof (Z.mod_pos_bound (200 * m + K) (2 * K) ltac:(lia)) as Hr.
  set (h := (200 * m + K) / (2 * K)) in *.
  assert (Hbound : Z.abs (36000 * h - a) <= 18000).
  { assert (Hup : K * (36000 * h - a - 18000) < K) by nia.
    assert (Hlo : - K < K * (36000 * h - a + 18000)) by nia.
    assert (36000 * h - a - 18000 < 1) by nia.
    assert (-1 < 36000 * h - a + 18000) by nia.
    lia. }
  unfold a in Hbound. destruct (Z.sgn_spec d) as [[? ->] | [[? ->] | [? ->]]]; lia.
Qed.

Lemma hours_between_five now : hours_between now (now - 5 * HOUR_MS) = 500.
Proof.
  unfold hours_between, HOUR_MS. cbn zeta.
  replace (now - (now - 5 * (1000 * 60 * 60))) with 18000000 by lia.
  vm_compute. reflexivity.
Qed.

Local Close Scope Z_scope.

(** C4, as stated, fails.  For a checkpoint last cleaned at the epoch the
    new alert's [hours_overdue] is 472222.22 at the instant below: it is
    not 0, and it is not the exact quotient of the difference by an
    hour. *)
Lemma hours_overdue_at_epoch :
  let now := 1700000000123%Z in
  let s' := store (run (checkSlaCompliance now) quiet (stale_store 1)).1 in
  map Alert.details s'.(alerts) = [Some (mkDetails 47222222 4)]
  /\ 47222222%Z <> 0%Z
  /\ (47222222 * 36000 <> now - 0)%Z.
Proof. vm_compute. repeat split; discriminate. Qed.

(** C4, amended.  Every alert a run adds carries [sla_threshold_hours]
    4 and an [hours_overdue] that is the difference between [now] and
    the checkpoint's last-cleaned instant, in hours, rounded to two
    decimals; the number is not clamped.  For a checkpoint last cleaned
    five hours before [now] it is 5.00. *)
Theorem hours_overdue_details (now : instant) (env : Env) (s : Store) :
  (Z.abs now <= MAX_DATE_MS)%Z ->
  timestamps_in_range s = true ->
  forall a, In a (added s (store (run (checkSlaCompliance now) env s).1)) ->
    exists c h,
      checkpoints s !! Alert.checkpoint_id a = Some c
      /\ Alert.details a = Some (mkDetails h 4)
      /\ (Z.abs (36000 * h - (now - lastCleanedMs c)) <= 18000)%Z
      /\ (Checkpoint.last_cleaned_timestamp c = Some (now - 5 * HOUR_MS)%Z -> h = 500%Z).
Proof.
  intros Hnow Hts a Hin.
  apply added_by_run in Hin as (t & a0 & Hin & ->).
  apply in_alerts_to_create in Hin as ([id c] & Hdoc & _ & Hid & _ & Hh).
  apply in_overdue_checkpoints in Hdoc as (Hc & _ & t0 & Ht0 & Hlt).
  cbn [fst snd] in *.
  exists c, (hoursOverdue a0).
  cbn [stamp new_alert Alert.checkpoint_id Alert.details]. rewrite Hid.
  split; [exact Hc|]. split; [reflexivity|].
  rewrite Hh. unfold lastCleanedMs. rewrite Ht0.
  split.
  - apply hours_between_nearest.
    unfold timestamps_in_range in Hts. rewrite forallb_forall in Hts.
    apply in_map_to_list in Hc. specialize (Hts _ Hc). cbn [snd] in Hts.
    rewrite Ht0 in Hts. apply Z.leb_le in Hts.
    unfold threshold_of, DEFAULT_MAX_GAP_HOURS in Hlt.
    unfold MAX_DATE_MS in Hnow. unfold MIN_TIMESTAMP_MS in Hts.
    change (2 ^ 53)%Z with 9007199254740992%Z. lia.
  - intros [= ->]. apply hours_between_five.
Qed.

(** ** The two watchdogs *)

Lemma extends_with_refl s : extends_with s s [].
Proof.
  repeat split. exists []. rewrite app_nil_r. repeat split. constructor.
Qed.

Lemma extends_with_trans s s1 s2 l1 l2 :
  extends_with s s1 l1 -> extends_with s1 s2 l2 -> extends_with s s2 (l1 ++ l2).
Proof.
  intros (Hb1 & Hc1 & Hl1 & n1 & Ha1 & Hi1 & Ho1) (Hb2 & Hc2 & Hl2 & n2 & Ha2 & Hi2 & Ho2).
  repeat split; try congruence.
  exists (n1 ++ n2). rewrite Ha2, Ha1, <- app_assoc, map_app, Hi1, Hi2.
  repeat split. apply Forall_app. auto.
Qed.

Lemma has_open_extends s s' ids id :
  extends_with s s' ids -> has_open s' id = has_open s id || mem id ids.
Proof.
  intros (_ & _ & _ & new & Ha & <- & Ho). unfold has_open. rewrite Ha, existsb_app.
  f_equal. clear Ha. induction new as [|a new IH]; [reflexivity|].
  inversion Ho as [|? ? Hoa Hon]; subst. cbn [existsb map mem].
  rewrite Hoa, andb_true_r, (String.eqb_sym id). f_equal. now apply IH.
Qed.

Lemma naive_flags_extends thr s s' ids id :
  extends_with s s' ids -> ~ In id ids -> naive_flags thr s' id = naive_flags thr s id.
Proof.
  intros Hext Hid. unfold naive_flags.
  rewrite (has_open_extends s s' ids id Hext).
  destruct Hext as (_ & _ & Hl & _).
  unfold last_cleaned, last_log. rewrite Hl.
  destruct (mem id ids) eqn:Hm; [apply mem_In in Hm; contradiction|].
  now rewrite orb_false_r.
Qed.

Section Agreement.
Variable toISOString : instant -> string.
Variable env : Env.
Hypothesis quiet_env : no_faults env.

Lemma add_extends data w :
  is_open_breach data = true ->
  exists w', add data env w = (w', Ok tt)
             /\ extends_with (store w) (store w') [Alert.checkpoint_id data].
Proof.
  intros Ho. unfold add, call. rewrite quiet_env. eexists. split; [reflexivity|].
  cbn [store]. unfold add_alert, set_alerts.
  repeat split. eexists. split; [reflexivity|]. split; [reflexivity|].
  constructor; [|constructor]. destruct data. exact Ho.
Qed.

Lemma check_checkpoint_run thr b id w :
  exists w', Naive.check_checkpoint toISOString thr b id env w = (w', Ok tt)
             /\ extends_with (store w) (store w')
                             (if naive_flags thr (store w) id then [id] else []).
Proof.
  unfold Naive.check_checkpoint, naive_flags, last_cleaned.
  erewrite bind_ok by (apply read_ok, quiet_env). cbn [store].
  destruct (last_log id (store w)) as [t|];
    match goal with |- context [(?x <? thr)%Z] => destruct (x <? thr)%Z end;
    cbn [andb];
    try (eexists; split; [reflexivity | apply extends_with_refl]).
  all: erewrite bind_ok by (apply read_ok, quiet_env); cbn [store].
  all: rewrite has_open_alerts_of.
  all: destruct (open_alerts_of id (store w)) as [|a l]; cbn [length Nat.eqb negb].
  all: try (eexists; split; [reflexivity | apply extends_with_refl]).
  all: match goal with
       | |- context [add ?d env ?w1] =>
           destruct (add_extends d w1 eq_refl) as (w' & -> & Hext)
       end; exists w'; split; [reflexivity | exact Hext].
Qed.

Lemma inner_loop_run thr b (docs : list (string * Checkpoint.t)) : forall w,
  List.NoDup (map fst docs) ->
  exists w',
    for_each docs (fun cpDoc => Naive.check_checkpoint toISOString thr b cpDoc.1) env w
    = (w', Ok tt)
    /\ extends_with (store w) (store w')
                    (List.filter (naive_flags thr (store w)) (map fst docs)).
Proof.
  induction docs as [|d docs IH]; intros w Hnd; cbn [for_each map List.filter].
  - eexists. split; [reflexivity | apply extends_with_refl].
  - cbn [map] in Hnd. inversion Hnd as [|? ? Hd Hrest]; subst.
    destruct (check_checkpoint_run thr b d.1 w) as (w1 & Hrun & Hext).
    erewrite bind_ok by exact Hrun.
    destruct (IH w1 Hrest) as (w' & Hrun' & Hext').
    exists w'. split; [exact Hrun'|].
    assert (Hsame : List.filter (naive_flags thr (store w1)) (map fst docs)
                    = List.filter (naive_flags thr (store w)) (map fst docs)).
    { apply filter_ext_in. intros id Hid. eapply naive_flags_extends; [exact Hext|].
      intros Hin. destruct (naive_flags thr (store w) d.1); [|destruct Hin].
      destruct Hin as [<-|[]]. contradiction. }
    rewrite Hsame in Hext'.
    destruct (naive_flags thr (store w) d.1).
    + exact (extends_with_trans _ _ _ _ _ Hext Hext').
    + exact (extends_with_trans _ _ _ [] _ Hext Hext').
Qed.

Lemma NoDup_checkpoints_of_building b s :
  List.NoDup (map fst (checkpoints_of_building b s)).
Proof.
  unfold checkpoints_of_building.
  assert (H : List.NoDup (map fst (map_to_list (checkpoints s)))).
  { apply NoDup_ListNoDup, NoDup_fst_map_to_list. }
  revert H. generalize (map_to_list (checkpoints s)) as l.
  induction l as [|d l IH]; simpl; intros H; [constructor|].
  inversion H as [|? ? Hd Hl]; subst.
  destruct (String.eqb _ _); simpl; auto.
  constructor; auto.
  intros Hin. apply Hd. apply in_map_iff in Hin as (d' & <- & Hin).
  apply in_map. apply filter_In in Hin. tauto.
Qed.

Lemma in_flagged_in thr s b id :
  In id (flagged_in thr s b) <->
  (exists c, checkpoints s !! id = Some c /\ Checkpoint.building_id c = b)
  /\ naive_flags thr s id = true.
Proof.
  unfold flagged_in, checkpoints_of_building. rewrite filter_In, in_map_iff.
  split.
  - intros (([id' c] & <- & Hin) & Hf). apply filter_In in Hin as [Hin Hb].
    apply in_map_to_list in Hin. apply String.eqb_eq in Hb. eauto.
  - intros ((c & Hc & Hb) & Hf). split; [|exact Hf].
    exists (id, c). split; [reflexivity|]. apply filter_In.
    split; [now apply in_map_to_list | now apply String.eqb_eq].
Qed.

Lemma building_run now b w :
  exists w', Naive.check_building toISOString now b env w = (w', Ok tt)
             /\ extends_with (store w) (store w')
                             (flagged_in (threshold_of now) (store w) b).
Proof.
  unfold Naive.check_building. cbn zeta.
  erewrite bind_ok by (apply read_ok, quiet_env).
  destruct (inner_loop_run (threshold_of now) b
              (checkpoints_of_building b (store w))
              (mkWorld (store w) (trace w ++ [QueryCheckpointsOfBuilding b]))
              (NoDup_checkpoints_of_building b (store w))) as (w' & Hrun & Hext).
  exists w'. split; [exact Hrun | exact Hext].
Qed.

Lemma flagged_in_extends thr s s' ids b :
  extends_with s s' ids ->
  (forall id, In id ids -> ~ In id (map fst (checkpoints_of_building b s))) ->
  flagged_in thr s' b = flagged_in thr s b.
Proof.
  intros Hext Hdisj. unfold flagged_in, checkpoints_of_building.
  pose proof Hext as (_ & Hc & _). rewrite Hc.
  apply filter_ext_in. intros id Hid.
  apply (naive_flags_extends thr s s' ids); [exact Hext|].
  intros Hin. exact (Hdisj id Hin Hid).
Qed.

Lemma outer_loop_run now (bs : list string) : forall w,
  List.NoDup bs ->
  exists w',
    for_each bs (Naive.check_building toISOString now) env w = (w', Ok tt)
    /\ extends_with (store w) (store w')
                    (flat_map (flagged_in (threshold_of now) (store w)) bs).
Proof.
  induction bs as [|b bs IH]; intros w Hnd; cbn [for_each flat_map].
  - eexists. split; [reflexivity | apply extends_with_refl].
  - inversion Hnd as [|? ? Hb Hrest]; subst.
    destruct (building_run now b w) as (w1 & Hrun & Hext).
    erewrite bind_ok by exact Hrun.
    destruct (IH w1 Hrest) as (w' & Hrun' & Hext').
    exists w'. split; [exact Hrun'|].
    assert (Hsame : forall l, ~ In b l ->
              flat_map (flagged_in (threshold_of now) (store w1)) l
              = flat_map (flagged_in (threshold_of now) (store w)) l).
    { induction l as [|b' l IHl]; intros Hl; [reflexivity|].
      cbn [flat_map]. rewrite IHl by (intros Hin; apply Hl; now right).
      f_equal. eapply flagged_in_extends; [exact Hext|].
      intros id Hid Hid'. apply in_flagged_in in Hid as ((c & Hc & Hcb) & _).
      apply in_map_iff in Hid' as ([id' c'] & <- & Hin').
      apply filter_In in Hin' as [Hin' Hb']. apply in_map_to_list in Hin'.
      apply String.eqb_eq in Hb'. cbn [fst snd] in *.
      rewrite Hc in Hin'. injection Hin' as <-. apply Hl. left. congruence. }
    rewrite (Hsame bs Hb) in Hext'.
    exact (extends_with_trans _ _ _ _ _ Hext Hext').
Qed.

Lemma naive_run now s :
  exists w',
    run (Naive.checkSlaCompliance toISOString now) env s = (w', Ok tt)
    /\ extends_with s (store w')
         (flat_map (flagged_in (threshold_of now) s) (elements (buildings s))).
Proof.
  unfold run, Naive.checkSlaCompliance.
  erewrite bind_ok by (apply read_ok, quiet_env). cbn [store].
  destruct (outer_loop_run now (elements (buildings s))
              (mkWorld s ([] ++ [GetBuildings]))
              ltac:(apply NoDup_ListNoDup, NoDup_elements)) as (w' & Hrun & Hext).
  exists w'. split; [exact Hrun | exact Hext].
Qed.
End Agreement.

Lemma denormalized_spec s id c :
  denormalized s = true -> checkpoints s !! id = Some c ->
  Checkpoint.is_active c = true
  /\ Checkpoint.last_cleaned_timestamp c = Some (last_cleaned s id).
Proof.
  unfold denormalized. rewrite forallb_forall. intros H Hc.
  apply in_map_to_list in Hc. specialize (H _ Hc). cbn [fst snd] in H.
  apply andb_true_iff in H as [Ha Ht]. split; [exact Ha|].
  destruct (Checkpoint.last_cleaned_timestamp c) as [t|]; [|discriminate].
  apply Z.eqb_eq in Ht. now subst.
Qed.

Lemma buildings_known_spec s id c :
  buildings_known s = true -> checkpoints s !! id = Some c ->
  Checkpoint.building_id c ∈ buildings s.
Proof.
  unfold buildings_known. rewrite forallb_forall. intros H Hc.
  apply in_map_to_list in Hc. specialize (H _ Hc). cbn [fst snd] in H.
  now apply bool_decide_eq_true in H.
Qed.

Lemma optimized_added now env s :
  no_faults env ->
  map Alert.checkpoint_id (added s (store (run (checkSlaCompliance now) env s).1))
  = map checkpointId (to_create now s).
Proof.
  intros Hnf. pose proof (run_no_faults now env s Hnf) as Hok. unfold added.
  destruct (run_cases now env s)
    as [[-> Hnone] | [(t1 & _ & Hne & _) | (t1 & t2 & -> & _)]].
  - rewrite drop_all, Hnone by exact Hok. reflexivity.
  - contradiction.
  - unfold after_status, after_alerts. cbn [alerts set_checkpoints set_alerts].
    rewrite drop_app_length, map_map. reflexivity.
Qed.

(** C9, as stated, fails.  One active checkpoint without a cleaning
    log, last cleaned at the epoch, whose building is not a document of
    [buildings]: the precondition holds, the nested loops create no
    alert, the single query creates one. *)
Lemma orphan_checkpoint_disagreement :
  let s := stale_store 1 in
  let now := 1700000000000%Z in
  denormalized s = true
  /\ map Alert.checkpoint_id
         (added s (store (run (Naive.checkSlaCompliance (fun _ => "") now) quiet s).1)) = []
  /\ map Alert.checkpoint_id
         (added s (store (run (checkSlaCompliance now) quiet s).1)) = ["0"].
Proof. vm_compute. repeat split; reflexivity. Qed.

(** C9, amended.  When moreover every checkpoint's building is a
    document of [buildings], the two watchdogs, run without faults at
    the same instant on the same store, both return normally and create
    alerts for the same checkpoints. *)
Theorem watchdogs_agree (toISOString : instant -> string) (now : instant)
    (env1 env2 : Env) (s : Store) :
  no_faults env1 -> no_faults env2 ->
  denormalized s = true ->
  buildings_known s = true ->
  let naive := run (Naive.checkSlaCompliance toISOString now) env1 s in
  let optimized := run (checkSlaCompliance now) env2 s in
  naive.2 = Ok tt /\ optimized.2 = Ok tt
  /\ forall id,
       In id (map Alert.checkpoint_id (added s (store naive.1))) <->
       In id (map Alert.checkpoint_id (added s (store optimized.1))).
Proof.
  intros Hnf1 Hnf2 Hden Hknown. cbn zeta.
  destruct (naive_run toISOString env1 Hnf1 now s) as (w' & Hrun & Hext).
  rewrite Hrun. cbn [fst snd].
  split; [reflexivity|]. split; [now apply run_no_faults|].
  intros id. rewrite optimized_added by exact Hnf2.
  destruct Hext as (_ & _ & _ & new & Ha & Hids & _).
  unfold added. rewrite Ha, drop_app_length, Hids.
  rewrite in_to_create_ids, in_flat_map, in_map_iff. split.
  - intros (b & _ & Hin). apply in_flagged_in in Hin as ((c & Hc & _) & Hf).
    unfold naive_flags in Hf. apply andb_true_iff in Hf as [Hlt Hopen].
    apply negb_true_iff in Hopen. apply Z.ltb_lt in Hlt.
    destruct (denormalized_spec s id c Hden Hc) as [Hact Hts].
    split; [|exact Hopen]. exists (id, c). split; [reflexivity|].
    apply in_overdue_checkpoints. eauto 6.
  - intros (([id' c] & <- & Hin) & Hopen). cbn [fst] in *.
    apply in_overdue_checkpoints in Hin as (Hc & _ & t & Ht & Hlt).
    destruct (denormalized_spec s id' c Hden Hc) as [_ Hts].
    rewrite Hts in Ht. injection Ht as <-.
    exists (Checkpoint.building_id c). split.
    + apply list_elem_of_In, elem_of_elements. eapply buildings_known_spec; eauto.
    + apply in_flagged_in. split; [eauto|].
      unfold naive_flags. rewrite Hopen. apply andb_true_iff.
      split; [now apply Z.ltb_lt | reflexivity].
Qed.

(** ** The PII filter *)

Local Open Scope js_scope.

Lemma lookup_assign_same key v fs : lookup_field key (assign_field key v fs) = v.
Proof.
  induction fs as [|[k w] fs IH]; simpl.
  - now rewrite String.eqb_refl.
  - destruct (String.eqb k key) eqn:E; simpl; rewrite E; auto.
Qed.

Lemma lookup_assign_other k key v fs :
  k <> key -> lookup_field k (assign_field key v fs) = lookup_field k fs.
Proof.
  intros Hne. induction fs as [|[k' w] fs IH]; simpl.
  - destruct (String.eqb_spec key k); [congruence | reflexivity].
  - destruct (String.eqb_spec k' key) as [->|]; simpl.
    + destruct (String.eqb_spec key k); [congruence | reflexivity].
    + destruct (String.eqb k' k); auto.
Qed.

Lemma in_assign_field k w key v fs :
  In (k, w) (assign_field key v fs) -> (k = key /\ w = v) \/ In (k, w) fs.
Proof.
  induction fs as [|[k' w'] fs IH]; simpl.
  - intros [[= <- <-]|[]]. auto.
  - destruct (String.eqb_spec k' key) as [->|]; simpl.
    + intros [[= <- <-]|H]; auto.
    + intros [H|H]; auto. destruct (IH H); auto.
Qed.

Lemma keys_assign_field key v fs k :
  In k (map fst (assign_field key v fs)) -> k = key \/ In k (map fst fs).
Proof.
  intros H. apply in_map_iff in H as ([k' w] & <- & H).
  apply in_assign_field in H as [[-> _]|H]; [now left | right].
  apply in_map_iff. now exists (k', w).
Qed.

Lemma lookup_absent k fs : ~ In k (map fst fs) -> lookup_field k fs = VUndefined.
Proof.
  induction fs as [|[k' w] fs IH]; simpl; [reflexivity|].
  intros H. destruct (String.eqb_spec k' k) as [->|]; [tauto | apply IH; tauto].
Qed.

Lemma lookup_present k fs :
  lookup_field k fs = VUndefined \/ In (k, lookup_field k fs) fs.
Proof.
  induction fs as [|[k' w] fs IH]; simpl; [now left|].
  destruct (String.eqb_spec k' k) as [->|]; [right; now left | tauto].
Qed.

(** *** Which keys a result can have *)

Lemma pick_parts_keys parts : forall source r out,
  pick_parts parts source (VObj r) = Returned out ->
  exists r', out = VObj r' /\
             forall k, In k (map fst r') -> In k (map fst r) \/ In k parts.
Proof.
  induction parts as [|key rest IH]; intros source r out; cbn [pick_parts].
  - intros [= <-]. eauto.
  - destruct (nullish source); [intros [= <-]; eauto|].
    destruct rest as [|key' rest'].
    + destruct (is_undefined (get_prop source key)); cbn [set_prop].
      * intros [= <-]. eauto.
      * intros [= <-]. eexists. split; [reflexivity|].
        intros k Hk. apply keys_assign_field in Hk as [->|Hk]; [right; now left | now left].
    + destruct (is_undefined (get_prop source key)).
      * intros H. apply IH in H as (r' & -> & Hkeys). exists r'. split; [reflexivity|].
        intros k Hk. destruct (Hkeys k Hk); [now left | right; now right].
      * cbn [set_prop obind].
        destruct (pick_parts (key' :: rest') _ _) as [sub'| |]; cbn [obind set_prop];
          [|discriminate|discriminate].
        intros [= <-]. eexists. split; [reflexivity|].
        intros k Hk. apply keys_assign_field in Hk as [->|Hk]; [right; now left|].
        apply keys_assign_field in Hk as [->|Hk]; [right; now left | now left].
Qed.

Lemma pickPaths_fold obj paths :
  pickPaths obj paths = fold_left (pick_step obj) paths (Returned (VObj [])).
Proof. reflexivity. Qed.

Lemma fold_pick_failed obj paths acc :
  (forall v, acc <> Returned v) -> fold_left (pick_step obj) paths acc = acc.
Proof.
  revert acc. induction paths as [|p paths IH]; intros acc H; [reflexivity|].
  cbn [fold_left]. rewrite IH; destruct acc; cbn; congruence.
Qed.

Lemma fold_pick_keys obj paths : forall r0 out,
  fold_left (pick_step obj) paths (Returned (VObj r0)) = Returned out ->
  exists r, out = VObj r /\
            forall k, In k (map fst r) -> In k (map fst r0) \/ In k (path_names paths).
Proof.
  induction paths as [|p paths IH]; intros r0 out; cbn [fold_left].
  - intros [= <-]. eauto.
  - unfold pick_step at 2. cbn [obind].
    destruct (pick_parts (split_dots p) obj (VObj r0)) as [v| |] eqn:E.
    + apply pick_parts_keys in E as (r1 & -> & Hk1). intros H.
      apply IH in H as (r & -> & Hk). exists r. split; [reflexivity|].
      intros k Hin. unfold path_names. cbn [flat_map]. rewrite in_app_iff.
      destruct (Hk k Hin) as [H1|H1]; [|auto]. destruct (Hk1 k H1); auto.
    + rewrite fold_pick_failed by discriminate. discriminate.
    + rewrite fold_pick_failed by discriminate. discriminate.
Qed.

(** *** Which of the input a result depends on *)

Lemma pick_parts_agree parts : forall source1 source2 target,
  nullish source1 = nullish source2 ->
  (forall k, In k parts -> get_prop source1 k = get_prop source2 k) ->
  pick_parts parts source1 target = pick_parts parts source2 target.
Proof.
  induction parts as [|key rest IH]; intros source1 source2 target Hn Hget;
    cbn [pick_parts]; [reflexivity|].
  rewrite Hn, (Hget key) by now left.
  destruct (nullish source2) eqn:E2; [reflexivity|].
  destruct rest as [|key' rest']; [reflexivity|].
  destruct (is_undefined (get_prop source2 key)); [|reflexivity].
  apply IH; [congruence|]. intros k Hk. apply Hget. now right.
Qed.

Lemma pickPaths_agree paths fs1 fs2 :
  (forall k, In k (path_names paths) -> lookup_field k fs1 = lookup_field k fs2) ->
  pickPaths (VObj fs1) paths = pickPaths (VObj fs2) paths.
Proof.
  rewrite !pickPaths_fold. generalize (Returned (VObj [])).
  induction paths as [|p paths IH]; intros acc H; [reflexivity|].
  cbn [fold_left]. unfold path_names in H. cbn [flat_map] in H.
  assert (Hstep : pick_step (VObj fs1) acc p = pick_step (VObj fs2) acc p).
  { unfold pick_step. destruct acc as [r| |]; cbn [obind]; try reflexivity.
    apply pick_parts_agree; [reflexivity|].
    intros k Hk. cbn [get_prop]. apply H, in_or_app. now left. }
  rewrite Hstep. apply IH. intros k Hk. apply H, in_or_app. now right.
Qed.

(** *** Logs that differ in PII fields only *)

Lemma lookup_remove_other k key fs :
  k <> key -> lookup_field k (remove_field key fs) = lookup_field k fs.
Proof.
  intros Hne. induction fs as [|[k' w] fs IH]; simpl; [reflexivity|].
  destruct (String.eqb_spec k' key) as [->|]; simpl.
  - destruct (String.eqb_spec key k); [congruence | exact IH].
  - destruct (String.eqb k' k); auto.
Qed.

Lemma lookup_map_other k key f fs :
  k <> key -> lookup_field k (map_field key f fs) = lookup_field k fs.
Proof.
  intros Hne. induction fs as [|[k' w] fs IH]; simpl; [reflexivity|].
  destruct (String.eqb_spec k' key) as [->|]; simpl.
  - destruct (String.eqb_spec key k); [congruence | reflexivity].
  - destruct (String.eqb k' k); auto.
Qed.

Lemma omit_parts_other key rest fs k :
  k <> key ->
  exists fs', omit_parts (key :: rest) (VObj fs) = VObj fs'
              /\ lookup_field k fs' = lookup_field k fs.
Proof.
  intros Hne. destruct rest as [|key' rest']; cbn [omit_parts]; eexists; split;
    try reflexivity.
  - now apply lookup_remove_other.
  - now apply lookup_map_other.
Qed.

Lemma omit_pii_other fs k :
  k <> "cleaner_id" -> k <> "proof_of_presence" ->
  exists fs', omit_pii (VObj fs) = VObj fs' /\ lookup_field k fs' = lookup_field k fs.
Proof.
  intros H1 H2. unfold omit_pii, PII_FIELDS.cleaningLog. cbn [fold_left].
  change (split_dots "cleaner_id") with ["cleaner_id"].
  change (split_dots "proof_of_presence.geo_location")
    with ["proof_of_presence"; "geo_location"].
  change (split_dots "proof_of_presence.nfc_tap_timestamp")
    with ["proof_of_presence"; "nfc_tap_timestamp"].
  destruct (omit_parts_other "cleaner_id" [] fs k H1) as (fs1 & -> & E1).
  destruct (omit_parts_other "proof_of_presence" ["geo_location"] fs1 k H2)
    as (fs2 & -> & E2).
  destruct (omit_parts_other "proof_of_presence" ["nfc_tap_timestamp"] fs2 k H2)
    as (fs3 & -> & E3).
  exists fs3. split; [reflexivity | congruence].
Qed.

Lemma same_without_pii fs1 fs2 k :
  omit_pii (VObj fs1) = omit_pii (VObj fs2) ->
  k <> "cleaner_id" -> k <> "proof_of_presence" ->
  lookup_field k fs1 = lookup_field k fs2.
Proof.
  intros H H1 H2.
  destruct (omit_pii_other fs1 k H1 H2) as (fs1' & E1 & <-).
  destruct (omit_pii_other fs2 k H1 H2) as (fs2' & E2 & <-).
  rewrite E1, E2 in H. now injection H as ->.
Qed.

Lemma safe_names_not_pii k :
  In k (path_names AI_SAFE_FIELDS.cleaningLog) ->
  k <> "cleaner_id" /\ k <> "proof_of_presence".
Proof.
  intros H. vm_compute in H.
  repeat (destruct H as [<-|H]; [split; discriminate|]). destruct H.
Qed.

(** *** Logs of the expected shape *)

Lemma get_prop_sub_of v k : get_prop v k = lookup_field k (sub_of v).
Proof. destruct v; reflexivity. Qed.

Lemma leaf_step key fs r :
  pick_parts [key] (VObj fs) (VObj r) = Returned (VObj (leaf_result key fs r)).
Proof.
  unfold leaf_result. cbn [pick_parts nullish get_prop].
  destruct (is_undefined (lookup_field key fs)); reflexivity.
Qed.

Lemma nested_step p leaf fs r :
  lookup_field leaf fs = VUndefined ->
  (lookup_field p r = VUndefined \/ exists sub, lookup_field p r = VObj sub) ->
  pick_parts [p; leaf] (VObj fs) (VObj r) = Returned (VObj (nested_result p leaf fs r)).
Proof.
  intros Hleaf Hsub. unfold nested_result. cbn [pick_parts nullish get_prop].
  destruct (is_undefined (lookup_field p fs)).
  - rewrite Hleaf. reflexivity.
  - assert (Hs : (if truthy (lookup_field p r) then lookup_field p r else VObj [])
                 = VObj (sub_of (lookup_field p r))).
    { destruct Hsub as [->|(sub & ->)]; reflexivity. }
    rewrite Hs. cbn [set_prop obind].
    destruct (nullish (lookup_field p fs)); cbn [orb obind set_prop]; [reflexivity|].
    destruct (is_undefined (get_prop (lookup_field p fs) leaf)); reflexivity.
Qed.

Lemma picked_from_nil fs : picked_from fs [].
Proof. split; [intros k v [] | now left]. Qed.

Lemma leaf_picked key fs r :
  listed key -> key <> "verification_result" ->
  picked_from fs r -> picked_from fs (leaf_result key fs r).
Proof.
  intros Hl Hne [Hok Hr]. unfold leaf_result.
  destruct (is_undefined (lookup_field key fs)); [now split|]. split.
  - intros k v Hin. apply in_assign_field in Hin as [[-> _]|Hin]; [now left | eauto].
  - unfold reason_from. rewrite lookup_assign_other by congruence. exact Hr.
Qed.

Lemma nested_sub p r :
  ~ listed p -> only_listed r ->
  lookup_field p r = VUndefined \/ exists sub, lookup_field p r = VObj sub.
Proof.
  intros Hp Hok. destruct (lookup_present p r) as [H|H]; [now left|].
  destruct (Hok _ _ H) as [Hl|(sub & Hv & _)]; [contradiction | eauto].
Qed.

Lemma sub_of_listed p r :
  ~ listed p -> only_listed r ->
  forall k2, In k2 (map fst (sub_of (lookup_field p r))) -> listed (p +:+ "." +:+ k2).
Proof.
  intros Hp Hok. destruct (lookup_present p r) as [H|H].
  - rewrite H. intros k2 [].
  - destruct (Hok _ _ H) as [Hl|(sub & -> & Hsub)]; [contradiction | exact Hsub].
Qed.

Lemma nested_picked p leaf fs r :
  listed (p +:+ "." +:+ leaf) -> ~ listed p ->
  picked_from fs r -> picked_from fs (nested_result p leaf fs r).
Proof.
  intros Hl Hp [Hok Hr]. unfold nested_result. cbn zeta.
  destruct (is_undefined (lookup_field p fs)); [now split|].
  pose proof (sub_of_listed p r Hp Hok) as Hsub0.
  set (sub0 := sub_of (lookup_field p r)) in *.
  set (v := lookup_field p fs).
  set (sub' := if nullish v || is_undefined (get_prop v leaf) then sub0
               else assign_field leaf (get_prop v leaf) sub0).
  assert (Hsub' : forall k2, In k2 (map fst sub') -> listed (p +:+ "." +:+ k2)).
  { unfold sub'. destruct (nullish v || is_undefined (get_prop v leaf)); [exact Hsub0|].
    intros k2 Hk2. apply keys_assign_field in Hk2 as [->|Hk2]; auto. }
  split.
  - intros k w Hin. apply in_assign_field in Hin as [[-> ->]|Hin]; [right; eauto|].
    apply in_assign_field in Hin as [[-> ->]|Hin]; [right; eauto | eauto].
  - unfold reason_from. cbn zeta.
    destruct (String.eqb_spec p "verification_result") as [->|Hne].
    + rewrite lookup_assign_same. cbn [get_prop].
      assert (H0 : lookup_field "rejection_reason" sub0 = VUndefined \/
                   lookup_field "rejection_reason" sub0
                   = get_prop (lookup_field "verification_result" fs) "rejection_reason").
      { unfold sub0. rewrite <- get_prop_sub_of. exact Hr. }
      unfold sub'. destruct (nullish v || is_undefined (get_prop v leaf)); [exact H0|].
      destruct (String.eqb_spec leaf "rejection_reason") as [->|Hleaf].
      * rewrite lookup_assign_same. now right.
      * rewrite lookup_assign_other by congruence. exact H0.
    + rewrite !lookup_assign_other by congruence. exact Hr.
Qed.

Lemma fold_pick_inv obj (I : list (string * value) -> Prop) paths :
  Forall (fun path => forall r, I r ->
            exists r', pick_parts (split_dots path) obj (VObj r) = Returned (VObj r')
                       /\ I r') paths ->
  forall r0, I r0 ->
    exists r, fold_left (pick_step obj) paths (Returned (VObj r0)) = Returned (VObj r)
              /\ I r.
Proof.
  induction 1 as [|p paths Hp _ IH]; intros r0 H0; cbn [fold_left]; [eauto|].
  destruct (Hp r0 H0) as (r1 & E & H1). unfold pick_step at 2. cbn [obind].
  rewrite E. apply IH, H1.
Qed.

Lemma shape_leaf fs leaf :
  cleaning_log_shape fs = true -> In leaf nested_leaves ->
  lookup_field leaf fs = VUndefined.
Proof.
  unfold cleaning_log_shape. rewrite andb_true_iff, forallb_forall.
  intros [H _] Hin. specialize (H leaf Hin).
  destruct (lookup_field leaf fs); [reflexivity | discriminate..].
Qed.

Lemma not_listed_nested p :
  p = "proof_of_quality" \/ p = "verification_result" -> ~ listed p.
Proof.
  intros [->| ->] H; vm_compute in H;
    repeat (destruct H as [H|H]; [discriminate|]); destruct H.
Qed.

Ltac in_list := unfold listed; cbn; repeat first [left; reflexivity | right].

Lemma pickPaths_shape fs :
  cleaning_log_shape fs = true ->
  exists r, pickPaths (VObj fs) AI_SAFE_FIELDS.cleaningLog = Returned (VObj r)
            /\ picked_from fs r.
Proof.
  intros Hshape. rewrite pickPaths_fold.
  apply fold_pick_inv; [|apply picked_from_nil].
  assert (Hleaf : forall key, listed key -> key <> "verification_result" ->
            split_dots key = [key] ->
            forall r, picked_from fs r ->
              exists r', pick_parts (split_dots key) (VObj fs) (VObj r) = Returned (VObj r')
                         /\ picked_from fs r').
  { intros key Hl Hne -> r Hr. rewrite leaf_step. eauto using leaf_picked. }
  assert (Hnested : forall p leaf,
            p = "proof_of_quality" \/ p = "verification_result" ->
            listed (p +:+ "." +:+ leaf) -> In leaf nested_leaves ->
            split_dots (p +:+ "." +:+ leaf) = [p; leaf] ->
            forall r, picked_from fs r ->
              exists r', pick_parts (split_dots (p +:+ "." +:+ leaf)) (VObj fs) (VObj r)
                         = Returned (VObj r')
                         /\ picked_from fs r').
  { intros p leaf Hp Hl Hin -> r Hr. apply not_listed_nested in Hp.
    rewrite nested_step.
    - eauto using nested_picked.
    - now apply shape_leaf.
    - apply nested_sub; [exact Hp | apply Hr]. }
  unfold AI_SAFE_FIELDS.cleaningLog.
  repeat (apply Forall_cons; split); [..|apply Forall_nil_2].
  1-5: apply Hleaf; [in_list | discriminate | reflexivity].
  1-5: apply (Hnested "proof_of_quality");
    [now left | in_list | in_list | reflexivity].
  all: apply (Hnested "verification_result");
    [now right | in_list | in_list | reflexivity].
Qed.

Lemma sanitize_keys redactText fs out :
  sanitizeLogForAI redactText (VObj fs) = Returned out ->
  exists r, out = VObj r /\
            forall k, In k (map fst r) -> In k (path_names AI_SAFE_FIELDS.cleaningLog).
Proof.
  unfold sanitizeLogForAI.
  destruct (pickPaths (VObj fs) AI_SAFE_FIELDS.cleaningLog) as [sanitized| |] eqn:E;
    cbn [obind]; [|discriminate..].
  rewrite pickPaths_fold in E. apply fold_pick_keys in E as (r & -> & Hk).
  assert (Hk' : forall k, In k (map fst r) -> In k (path_names AI_SAFE_FIELDS.cleaningLog)).
  { intros k Hin. destruct (Hk k Hin) as [[]|]; trivial. }
  match goal with |- context [truthy ?x] => destruct (truthy x) end.
  2:{ intros [= <-]. eauto. }
  match goal with |- context [match ?x with VStr _ => _ | _ => _ end] => destruct x end;
    try discriminate.
  destruct (get_prop (VObj r) "verification_result"); cbn [set_prop obind];
    try discriminate.
  intros [= <-]. eexists. split; [reflexivity|].
  intros k Hin. apply keys_assign_field in Hin as [->|Hin]; [|auto].
  vm_compute. tauto.
Qed.

(** Where the filter departs from its policy: when the object a nested
    path goes through is missing, [pickPaths] looks the rest of the path
    up in the parent.  Logs of the expected shape have no such field. *)
Remark pickPaths_missing_parent :
  pickPaths (VObj [("status", VStr "REJECTED")]) ["verification_result.status"]
  = Returned (VObj [("status", VStr "REJECTED")]).
Proof. reflexivity. Qed.

(** C10.  The sanitized log never has a [cleaner_id] or a
    [proof_of_presence] field.  For a log of the expected shape the
    filter returns an object every field of which is a path of
    [AI_SAFE_FIELDS.cleaningLog], or an object under such paths only.
    Two logs that are the same once the paths of
    [PII_FIELDS.cleaningLog] are deleted have the same sanitized
    outcome. *)
Theorem sanitized_log_has_no_pii (redactText : string -> string) :
  (forall fs out,
     sanitizeLogForAI redactText (VObj fs) = Returned out ->
     get_prop out "cleaner_id" = VUndefined
     /\ get_prop out "proof_of_presence" = VUndefined)
  /\ (forall fs,
        cleaning_log_shape fs = true ->
        exists r, sanitizeLogForAI redactText (VObj fs) = Returned (VObj r)
                  /\ only_listed r)
  /\ (forall fs1 fs2,
        omit_pii (VObj fs1) = omit_pii (VObj fs2) ->
        sanitizeLogForAI redactText (VObj fs1) = sanitizeLogForAI redactText (VObj fs2)).
Proof.
  split; [|split].
  - intros fs out H. apply sanitize_keys in H as (r & -> & Hk). cbn [get_prop].
    split; apply lookup_absent; intros Hin; apply Hk, safe_names_not_pii in Hin;
      destruct Hin; congruence.
  - intros fs Hshape.
    destruct (pickPaths_shape fs Hshape) as (r & E & Hok & Hreason).
    unfold sanitizeLogForAI. rewrite E. cbn [obind get_prop].
    pose proof (not_listed_nested "verification_result" (or_intror eq_refl)) as Hvr.
    assert (Hnull : (if nullish (lookup_field "verification_result" r) then VUndefined
                     else get_prop (lookup_field "verification_result" r) "rejection_reason")
                    = get_prop (lookup_field "verification_result" r) "rejection_reason").
    { destruct (lookup_field "verification_result" r); reflexivity. }
    rewrite Hnull.
    destruct (truthy (get_prop (lookup_field "verification_result" r) "rejection_reason"))
      eqn:Htruthy; [|eauto].
    unfold reason_from in Hreason. cbn zeta in Hreason.
    destruct Hreason as [Hu|Hfrom]; [rewrite Hu in Htruthy; discriminate|].
    assert (Hstr : is_string
                     (get_prop (lookup_field "verification_result" r) "rejection_reason")
                   = true).
    { unfold cleaning_log_shape in Hshape. apply andb_true_iff in Hshape as [_ Hs].
      cbn zeta in Hs. rewrite <- Hfrom in Hs. rewrite Htruthy in Hs. exact Hs. }
    destruct (get_prop (lookup_field "verification_result" r) "rejection_reason")
      as [| | | |text| |] eqn:Ereason; try discriminate.
    destruct (nested_sub "verification_result" r Hvr Hok) as [Hsub|(sub & Hsub)].
    { rewrite Hsub in Ereason. discriminate. }
    rewrite Hsub. cbn [set_prop obind]. eexists. split; [reflexivity|].
    intros k v Hin. apply in_assign_field in Hin as [[-> ->]|Hin]; [|eauto].
    right. eexists. split; [reflexivity|].
    intros k2 Hk2. apply keys_assign_field in Hk2 as [->|Hk2]; [in_list|].
    pose proof (sub_of_listed "verification_result" r Hvr Hok) as Hl.
    rewrite Hsub in Hl. apply Hl, Hk2.
  - intros fs1 fs2 Hsame. unfold sanitizeLogForAI.
    rewrite (pickPaths_agree AI_SAFE_FIELDS.cleaningLog fs1 fs2); [reflexivity|].
    intros k Hk. apply safe_names_not_pii in Hk as [H1 H2].
    now apply same_without_pii.
Qed.

(** * The claims at concrete inputs *)

Lemma quiet_no_faults : no_faults quiet.
Proof. intros k. reflexivity. Qed.

Lemma demo_at_most_one_open : at_most_one_open demo_store.
Proof.
  intros id. unfold open_alerts_of, demo_store. cbn [alerts List.filter].
  destruct (_ && _); cbn; lia.
Qed.

Lemma overdue_query_exact_witness :
  let out := run (checkSlaCompliance T0) quiet boundary_store in
  out.2 = Ok tt
  /\ In "just_before" (checked_ids (trace out.1))
  /\ In "just_before" (map Alert.checkpoint_id (added boundary_store (store out.1)))
  /\ ~ In "at_cutoff" (checked_ids (trace out.1))
  /\ ~ In "at_cutoff" (map Alert.checkpoint_id (added boundary_store (store out.1))).
Proof.
  cbn zeta.
  destruct (overdue_query_exact T0 quiet boundary_store)
    as (_ & _ & _ & _ & _ & Hok & Hrun).
  specialize (Hok quiet_no_faults).
  destruct (Hrun Hok) as (_ & _ & Hat & Hbefore).
  destruct (Hat "at_cutoff" (checkpoint_cleaned (threshold_of T0)))
    as [Hat1 Hat2]; [reflexivity | reflexivity |].
  destruct (Hbefore "just_before" (checkpoint_cleaned (threshold_of T0 - 1)%Z))
    as (Hb1 & Hb2 & _); [reflexivity | reflexivity | reflexivity |].
  split; [exact Hok|]. split; [exact Hb1|]. split; [apply Hb2; reflexivity|].
  split; [exact Hat1 | exact Hat2].
Defined.

Lemma dedup_chunked_witness :
  let ids := map pretty (seq 0 25) in
  exists cs m,
    dedup_loop (length ids) ids 0 ∅ quiet (mkWorld demo_store [])
    = (mkWorld demo_store (map QueryOpenAlertsIn cs), Ok m)
    /\ length cs = 3.
Proof.
  intros ids.
  destruct (dedup_chunked ids quiet (mkWorld demo_store []))
    as (cs & m & Hrun & _ & H25 & _).
  - intros k _. reflexivity.
  - exists cs, m. split; [exact Hrun | apply H25; reflexivity].
Defined.

Lemma query_failure_aborts_witness :
  let out := run (checkSlaCompliance T0) (failing_at 1) demo_store in
  out.2 = Throw (StoreError 1) /\ store out.1 = demo_store
  /\ length (trace out.1) = 2 /\ List.filter is_write (trace out.1) = [].
Proof.
  apply (query_failure_aborts T0 (failing_at 1) demo_store 1).
  - reflexivity.
  - intros j Hj. destruct j; [reflexivity | lia].
  - vm_compute. constructor.
Defined.

Lemma empty_short_circuit_witness :
  run (checkSlaCompliance T0) quiet (stale_store 0)
  = (mkWorld (stale_store 0) [QueryOverdueCheckpoints (threshold_of T0)], Ok tt).
Proof.
  apply (empty_short_circuit T0 quiet (stale_store 0)); reflexivity.
Defined.

Lemma one_open_alert_witness :
  at_most_one_open demo_store
  /\ at_most_one_open (store (run (checkSlaCompliance T0) quiet demo_store).1)
  /\ (let s1 := store (run (checkSlaCompliance T0) quiet demo_store).1 in
      let out2 := run (checkSlaCompliance (T0 + 900000)%Z) quiet s1 in
      out2.2 = Ok tt /\ store out2.1 = s1
      /\ length (open_alerts_of "cp_001" (store out2.1)) = 1).
Proof.
  split; [exact demo_at_most_one_open|].
  destruct (one_open_alert_per_checkpoint T0 quiet demo_store demo_at_most_one_open)
    as (Hinv & _ & Htwice).
  split; [exact Hinv|]. cbn zeta.
  destruct (Htwice quiet_no_faults quiet (T0 + 900000)%Z quiet_no_faults)
    as (Hok & Hone & _ & Hsame).
  split; [exact Hok|]. split.
  - apply Hsame. intros id Hid. vm_compute in Hid. vm_compute. exact Hid.
  - apply Hone. vm_compute. tauto.
Defined.

Lemma status_update_frame_witness :
  let out := run (checkSlaCompliance T0) quiet demo_store in
  out.2 = Ok tt
  /\ (exists c', checkpoints (store out.1) !! "cp_001" = Some c'
                 /\ Checkpoint.current_status c' = "OVERDUE")
  /\ checkpoints (store out.1) !! "cp_002"
     = Some (checkpoint_cleaned (T0 - 6 * HOUR_MS)%Z)
  /\ exists queries batch,
       trace out.1 = queries ++ [Commit batch; Commit [UpdateCheckpoint "cp_001" "OVERDUE"]].
Proof.
  cbn zeta.
  destruct (status_update_frame T0 quiet demo_store)
    as (_ & _ & Hstatus & _ & Hok & _ & Hbatch).
  specialize (Hok quiet_no_faults).
  assert (E : map Alert.checkpoint_id
                  (drop (length (alerts demo_store))
                        (alerts (store (run (checkSlaCompliance T0) quiet demo_store).1)))
              = ["cp_001"]) by (vm_compute; reflexivity).
  rewrite E in Hstatus, Hbatch.
  split; [exact Hok|]. split; [|split].
  - destruct (Hstatus Hok "cp_001" (checkpoint_cleaned (T0 - 5 * HOUR_MS)%Z) eq_refl)
      as (c' & Hc' & Hst).
    exists c'. split; [exact Hc' | exact Hst].
  - destruct (Hstatus Hok "cp_002" (checkpoint_cleaned (T0 - 6 * HOUR_MS)%Z) eq_refl)
      as (c' & Hc' & Hst).
    rewrite Hc'. f_equal. exact Hst.
  - destruct Hbatch as (queries & batch & Htrace & _); [discriminate|].
    exists queries, batch. exact Htrace.
Defined.

Lemma alerts_in_one_batch_witness :
  let out := run (checkSlaCompliance T0) quiet demo_store in
  let atc := to_create T0 demo_store in
  List.filter is_write (trace out.1) = [Commit (alert_batch atc); Commit (status_batch atc)].
Proof.
  cbn zeta.
  apply (proj2 (proj2 (proj2 (alerts_in_one_batch T0 quiet demo_store)))).
  - reflexivity.
  - vm_compute. discriminate.
Defined.

Lemma hours_overdue_details_witness :
  Forall (fun a => exists c h,
            checkpoints demo_store !! Alert.checkpoint_id a = Some c
            /\ Alert.details a = Some (mkDetails h 4)
            /\ (Z.abs (36000 * h - (T0 - lastCleanedMs c)) <= 18000)%Z
            /\ (Checkpoint.last_cleaned_timestamp c = Some (T0 - 5 * HOUR_MS)%Z
                -> h = 500%Z))
         (added demo_store (store (run (checkSlaCompliance T0) quiet demo_store).1)).
Proof.
  apply Forall_forall. intros a Ha. apply list_elem_of_In in Ha.
  apply (hours_overdue_details T0 quiet demo_store).
  - vm_compute. discriminate.
  - reflexivity.
  - exact Ha.
Defined.

Lemma watchdogs_agree_witness :
  In "cp_001"
     (map Alert.checkpoint_id
        (added demo_store
           (store (run (Naive.checkSlaCompliance (fun _ => "") T0) quiet demo_store).1)))
  <-> In "cp_001"
         (map Alert.checkpoint_id
            (added demo_store (store (run (checkSlaCompliance T0) quiet demo_store).1))).
Proof.
  apply (watchdogs_agree (fun _ => "") T0 quiet quiet demo_store).
  - exact quiet_no_faults.
  - exact quiet_no_faults.
  - reflexivity.
  - reflexivity.
Defined.

Lemma sanitized_log_witness :
  (exists r, sanitizeLogForAI (fun text => text) (VObj (demo_log "w_17" 48)) = Returned (VObj r)
             /\ only_listed r)
  /\ sanitizeLogForAI (fun text => text) (VObj (demo_log "w_17" 48))
     = sanitizeLogForAI (fun text => text) (VObj (demo_log "w_42" 51)).
Proof.
  destruct (sanitized_log_has_no_pii (fun text => text)) as (_ & Hshape & Hsame).
  split.
  - apply Hshape. reflexivity.
  - apply Hsame. reflexivity.
Defined.
